(** * shell-sleeper: delays backed by the shell [sleep] command

    A shallow embedding of [src/index.js] and a verification of the
    statements its specification makes about it.

    The module keeps two pieces of state, the dictionary [shellDelays] and the
    counter [nextshellDelayId].  Everything else it touches belongs to the host
    (Node.js): the child processes started by [exec], the native timers, and
    the answer of [commandExistsSync('sleep')].  All of it is gathered in one
    record, [world], which every function takes and returns.

    How the host is modelled:
    - JavaScript runs one thing at a time.  A call of an exported function, a
      completion handler and a timer callback each run from start to end;
      between them a sleep process may end, Node may process the end of a
      process, and the sleep utility may be installed or removed.  The loops
      of [clearShellDelay] take fuel.
    - Handles and slots are integers ([Z]).  A duration is a JavaScript
      number; [ms / 1000] is the binary64 quotient, printed as
      Number::toString prints it.
    - [setTimeout] and [setInterval] return a [Timeout] object, not a number,
      and [clearInterval] is [clearTimeout], as in Node.  A [Timeout] used as
      a key of the dictionary stands for its numeric id.  [clearTimeout] of a
      number clears nothing: Node would look the number up among the timers
      that have been converted to their id, and these are not kept track of.
    - [kill] reports success for as long as the wrapper holds its handle on
      the process, that is, until Node has processed the end of the process;
      it ends only a process that was still running.
    - A callback is the sequence of calls it makes to the exported functions;
      invoking one is recorded in a trace, with the processes started, the
      termination requests, and the stores into the dictionary. *)

From Stdlib Require Import ZArith Lia Ascii.
From Stdlib Require Import DecimalString DecimalN.
From stdpp Require Import gmap strings list.

Open Scope Z_scope.

(** ** Numbers *)

(** A JavaScript number, as far as durations go: not-a-number, an infinity,
    or a finite value [m * 2 ^ e].  The binary64 values are those with
    [|m| < 2 ^ 53] and [-1074 ≤ e ≤ 971]; every whole number up to 2 ^ 53 is
    one of them, and a whole number is used as a duration as it is. *)
Inductive number :=
| NaN
| Infinity (negative : bool)
| Finite (m e : Z).

Definition whole (z : Z) : number := Finite z 0.

Coercion whole : Z >-> number.

(** ** Values *)

(** The JavaScript values that flow through the module.  A handle is either a
    number (a key of [shellDelays]) or the [Timeout] object Node's
    [setTimeout]/[setInterval] return; a slot of the dictionary holds a
    [ChildProcess] object, a number, or (after a recurrence that fell back to
    native timers) a [Timeout]; reading an absent key gives [undefined]. *)
Inductive value :=
| VUndefined
| VNum (n : Z)
| VChildProcess (pid : nat)
| VTimeout (tid : nat).

(** [typeof v === 'number'] *)
Definition typeof_number (v : value) : bool :=
  match v with VNum _ => true | _ => false end.

(** ** Callers and callbacks *)

(** A callback is caller code.  What it can do to this module is call its
    exported functions, so a callback is a name (to recognise its invocations
    in the trace) and the sequence of calls it makes. *)
Inductive call :=
| SetShellTimeout (cb : callback) (ms : number)
| SetShellInterval (cb : callback) (ms : number)
| ClearShellTimeout (handle : value)
| ClearShellInterval (handle : value)
with callback :=
| Callback (name : string) (body : list call).

Definition cb_name (cb : callback) : string :=
  match cb with Callback n _ => n end.

Definition cb_body (cb : callback) : list call :=
  match cb with Callback _ b => b end.

(** ** The host *)

(** A child process started by [exec].  [Sleeping]: the command is still
    running.  [Exited error]: the command has ended, naturally
    ([error = false]) or abnormally ([error = true], which is what a signal
    that reaches a running process produces); Node has not noticed yet, and
    the wrapper still holds its handle on the process.  [Closed error]: Node
    has processed the exit and the wrapper has let go of its handle; the
    completion callback given to [exec], which waits for the output streams
    to close, has not run yet.  [Reaped]: the completion callback has run. *)
Inductive proc_status :=
| Sleeping
| Exited (error : bool)
| Closed (error : bool)
| Reaped.

(** The completion callback given to [exec] at line 44 is a closure over
    [delayId], [callback], [ms] and [recur]; a child records them with the
    command line it runs. *)
Record child := Child {
  c_command : string;
  c_delayId : Z;
  c_callback : callback;
  c_ms : number;
  c_recur : bool;
  c_status : proc_status
}.

(** The wrapper holds its handle on the process until Node has processed the
    exit. *)
Definition has_handle (st : proc_status) : bool :=
  match st with
  | Sleeping | Exited _ => true
  | Closed _ | Reaped => false
  end.

Definition with_status (st : proc_status) (c : child) : child :=
  Child (c_command c) (c_delayId c) (c_callback c) (c_ms c) (c_recur c) st.

(** A native timer of the host. *)
Record timer := Timer {
  t_callback : callback;
  t_ms : number;
  t_repeat : bool
}.

(** What can be observed from outside, in the order it happens. *)
Inductive event :=
| EvExec (pid : nat) (command : string)
| EvStore (slot : Z) (v : value)
| EvKill (pid : nat) (ok : bool)
| EvInvoke (name : string)
| EvNativeSet (tid : nat) (repeat : bool) (name : string) (ms : number)
| EvNativeClear (handle : value).

Record world := World {
  shellDelays : gmap Z value;
  nextshellDelayId : Z;
  sleepInstalled : bool;
  children : list child;
  timers : gmap nat timer;
  nextTimerId : nat;
  trace : list event
}.

(** Module load: an empty dictionary, the counter at 0, no process, no timer. *)
Definition initial (installed : bool) : world :=
  World ∅ 0 installed [] ∅ 0%nat [].

Definition set_shellDelays (f : gmap Z value → gmap Z value) (σ : world) : world :=
  World (f (shellDelays σ)) (nextshellDelayId σ) (sleepInstalled σ)
        (children σ) (timers σ) (nextTimerId σ) (trace σ).

Definition set_nextshellDelayId (n : Z) (σ : world) : world :=
  World (shellDelays σ) n (sleepInstalled σ)
        (children σ) (timers σ) (nextTimerId σ) (trace σ).

Definition set_sleepInstalled (b : bool) (σ : world) : world :=
  World (shellDelays σ) (nextshellDelayId σ) b
        (children σ) (timers σ) (nextTimerId σ) (trace σ).

Definition set_children (f : list child → list child) (σ : world) : world :=
  World (shellDelays σ) (nextshellDelayId σ) (sleepInstalled σ)
        (f (children σ)) (timers σ) (nextTimerId σ) (trace σ).

Definition set_timers (f : gmap nat timer → gmap nat timer) (σ : world) : world :=
  World (shellDelays σ) (nextshellDelayId σ) (sleepInstalled σ)
        (children σ) (f (timers σ)) (nextTimerId σ) (trace σ).

Definition set_nextTimerId (n : nat) (σ : world) : world :=
  World (shellDelays σ) (nextshellDelayId σ) (sleepInstalled σ)
        (children σ) (timers σ) n (trace σ).

Definition log (e : event) (σ : world) : world :=
  World (shellDelays σ) (nextshellDelayId σ) (sleepInstalled σ)
        (children σ) (timers σ) (nextTimerId σ) (trace σ ++ [e]).

(** How a call ends: it returns a value, it throws, or it is still running,
    in the world [σ], when the fuel is spent. *)
Inductive error := TypeError.

Inductive outcome :=
| Returned (v : value) (σ : world)
| Threw (e : error) (σ : world)
| OutOfFuel (σ : world).

(** *** Native timers *)

Definition native_set (repeat : bool) (callback : callback) (ms : number)
    (σ : world) : value * world :=
  let tid := nextTimerId σ in
  (VTimeout tid,
   log (EvNativeSet tid repeat (cb_name callback) ms)
     (set_nextTimerId (S tid)
        (set_timers (insert tid (Timer callback ms repeat)) σ))).

Definition setTimeout := native_set false.
Definition setInterval := native_set true.

(** Clearing something that is not an active timer does nothing; neither
    does clearing a number. *)
Definition clearTimeout (handle : value) (σ : world) : world :=
  log (EvNativeClear handle)
    match handle with
    | VTimeout tid => set_timers (delete tid) σ
    | _ => σ
    end.

(** In Node [clearInterval] is [clearTimeout]. *)
Definition clearInterval (handle : value) (σ : world) : world :=
  clearTimeout handle σ.

(** *** Child processes *)

(** [exec(command, handler)]: the process starts and its wrapper is returned. *)
Definition exec (command : string) (delayId : Z) (callback : callback)
    (ms : number) (recur : bool) (σ : world) : value * world :=
  let pid := length (children σ) in
  (VChildProcess pid,
   log (EvExec pid command)
     (set_children (λ cs, cs ++ [Child command delayId callback ms recur Sleeping]) σ)).

(** [subprocess.kill()].  As long as the wrapper holds its handle the signal
    is sent and [kill] returns true: a process that was still running ends
    abnormally; one that had already ended is not affected, and its
    completion arrives as it would have, without an error if it ended
    naturally.  Once the handle is gone [kill] returns false. *)
Definition kill (pid : nat) (σ : world) : bool * world :=
  match children σ !! pid with
  | Some c =>
      match c_status c with
      | Sleeping =>
          (true, log (EvKill pid true)
                   (set_children (<[pid := with_status (Exited true) c]>) σ))
      | Exited _ => (true, log (EvKill pid true) σ)
      | _ => (false, log (EvKill pid false) σ)
      end
  | None => (false, log (EvKill pid false) σ)
  end.

(** [v.kill()] for an arbitrary value: only a [ChildProcess] has the method;
    on [undefined] or on a [Timeout] the call is a TypeError. *)
Definition call_kill (v : value) (σ : world) : option (bool * world) :=
  match v with
  | VChildProcess pid => Some (kill pid σ)
  | _ => None
  end.

(** ** Number to string *)

(** The command line is built with [`sleep ${ms / 1000}s`]: the division is
    the binary64 division, and its result is converted to a string as the
    language prescribes (Number::toString). *)

(** *** The quotient, in binary64 *)

(** The fraction [n / d] times [2 ^ e], and times [10 ^ t], as a fraction. *)
Definition scale2 (n d e : Z) : Z * Z :=
  if 0 <=? e then (n * 2 ^ e, d) else (n, d * 2 ^ (- e)).

Definition scale10 (n d t : Z) : Z * Z :=
  if 0 <=? t then (n * 10 ^ t, d) else (n, d * 10 ^ (- t)).

(** [n / d] rounded to the nearest integer, a tie to the even one. *)
Definition round_div (n d : Z) : Z :=
  let q := n / d in
  let r := n mod d in
  if 2 * r <? d then q
  else if d <? 2 * r then q + 1
  else if Z.even q then q else q + 1.

(** [d * 2 ^ p ≤ n] *)
Definition above_pow2 (n d p : Z) : bool :=
  let '(n', d') := scale2 n d (- p) in d' <=? n'.

(** The integer part of the binary logarithm of [n / d], for positive [n]
    and [d]. *)
Definition log2_fraction (n d : Z) : Z :=
  let l := Z.log2 n - Z.log2 d in
  if above_pow2 n d l then l else l - 1.

(** A binary64 value that is not negative: zero, [m * 2 ^ e] with
    [0 < m < 2 ^ 53] and [-1074 ≤ e ≤ 971], or infinity. *)
Inductive binary64 :=
| B64Zero
| B64 (m e : Z)
| B64Infinity.

Definition binary64_eqb (x y : binary64) : bool :=
  match x, y with
  | B64Zero, B64Zero | B64Infinity, B64Infinity => true
  | B64 m e, B64 m' e' => (m =? m') && (e =? e')
  | _, _ => false
  end.

(** The positive fraction [n / d] rounded to binary64, to the nearest value
    and a tie to the even one: 53 bits are kept, fewer below 2 ^ -1022, and
    what rounds up to 2 ^ 1024 is infinite. *)
Definition binary64_of_fraction (n d : Z) : binary64 :=
  let e := Z.max (log2_fraction n d - 52) (-1074) in
  let '(n', d') := scale2 n d (- e) in
  let m := round_div n' d' in
  if m =? 0 then B64Zero
  else
    let '(m, e) := if m =? 2 ^ 53 then (2 ^ 52, e + 1) else (m, e) in
    if 971 <? e then B64Infinity else B64 m e.

(** [(m * 2 ^ e) / 1000], for [m > 0]. *)
Definition quotient_by_1000 (m e : Z) : binary64 :=
  let '(n, d) := scale2 m 1000 e in binary64_of_fraction n d.

(** *** The digits of a binary64 value *)

(** Number::toString prints the decimal [s * 10 ^ t] with the fewest digits
    [s] that rounds to the value and, of these, the one nearest to the
    value. *)

(** [s * 10 ^ t] is positive and rounds to [x]. *)
Definition candidate (x : binary64) (s t : Z) : bool :=
  (0 <? s) &&
  let '(n, d) := scale10 s 1 t in binary64_eqb (binary64_of_fraction n d) x.

(** The digits for [mx * 2 ^ ex] with last place [10 ^ t], if there are any:
    of the multiple of [10 ^ t] just below the value and the one just above,
    the nearer one that rounds to the value, the even one if they are equally
    near. *)
Definition digits_at (mx ex t : Z) : option Z :=
  let '(xn, xd) := scale2 mx 1 ex in
  let '(n, d) := scale10 xn xd (- t) in
  let s := n / d in
  let below := candidate (B64 mx ex) s t in
  let above := candidate (B64 mx ex) (s + 1) t in
  if below && above then
    let dl := n - s * d in
    let dh := (s + 1) * d - n in
    Some (if dl <? dh then s
          else if dh <? dl then s + 1
          else if Z.even s then s else s + 1)
  else if below then Some s
  else if above then Some (s + 1)
  else None.

(** The value itself as a decimal. *)
Definition exact_digits (mx ex : Z) : Z * Z :=
  if 0 <=? ex then (mx * 2 ^ ex, 0) else (mx * 5 ^ (- ex), ex).

(** The fewest digits are those with the highest last place: the last places
    are tried from [t] downwards.  The value itself has the last place
    [10 ^ ex], so the search comes to an end. *)
Fixpoint shortest (fuel : nat) (mx ex t : Z) : Z * Z :=
  match digits_at mx ex t with
  | Some s => (s, t)
  | None =>
      match fuel with
      | O => exact_digits mx ex
      | S fuel' => shortest fuel' mx ex (t - 1)
      end
  end.

(** The search starts at a power of ten above the value. *)
Definition decimal_of_binary64 (mx ex : Z) : Z * Z :=
  let '(xn, xd) := scale2 mx 1 ex in
  let top := Z.log2 (xn / xd + 1) / 3 + 1 in
  shortest (Z.to_nat (top - Z.min ex 0)) mx ex top.

(** *** The string *)

(** The decimal numeral of a natural number. *)
Definition numeral (z : Z) : string :=
  NilZero.string_of_uint (N.to_uint (Z.to_N z)).

(** One decimal digit in front of [rest]. *)
Definition digit (d : N) (rest : Decimal.uint) : Decimal.uint :=
  match d with
  | 0%N => Decimal.D0 rest
  | 1%N => Decimal.D1 rest
  | 2%N => Decimal.D2 rest
  | 3%N => Decimal.D3 rest
  | 4%N => Decimal.D4 rest
  | 5%N => Decimal.D5 rest
  | 6%N => Decimal.D6 rest
  | 7%N => Decimal.D7 rest
  | 8%N => Decimal.D8 rest
  | _ => Decimal.D9 rest
  end.

(** The last [w] digits of [f], zeros in front included. *)
Fixpoint fixed_digits (w : nat) (f : Z) : Decimal.uint :=
  match w with
  | O => Decimal.Nil
  | S w' => digit (Z.to_N (f / 10 ^ Z.of_nat w' mod 10)) (fixed_digits w' f)
  end.

(** The digits [s] with last place [10 ^ t] as a string.  A value from
    10 ^ -6 and below 10 ^ 21 is written out: a whole number as its numeral;
    otherwise the whole part, a point and the [- t] digits after it.  Any
    other value is written with an exponent: the first digit, a point and
    the other digits if there are any, [e], the sign of the exponent and the
    exponent. *)
Definition format_decimal (s t : Z) : string :=
  if (0 <=? t) && (s * 10 ^ t <? 10 ^ 21) then numeral (s * 10 ^ t)
  else if (t <? 0) && (10 ^ (- t) <=? s * 10 ^ 6) then
    numeral (s / 10 ^ (- t)) +:+ "." +:+
    NilEmpty.string_of_uint (fixed_digits (Z.to_nat (- t)) (s mod 10 ^ (- t)))
  else
    let n := Z.of_nat (String.length (numeral s)) + t in
    match numeral s with
    | String c rest =>
        String c (match rest with
                  | EmptyString => EmptyString
                  | _ => "." +:+ rest
                  end) +:+
        "e" +:+ (if 0 <=? n - 1 then "+" else "-") +:+ numeral (Z.abs (n - 1))
    | EmptyString => EmptyString
    end.

(** [`${ms / 1000}`].  The name says what the string is for a whole number
    of milliseconds: so many thousandths of a second. *)
Definition thousandths_to_string (ms : number) : string :=
  match ms with
  | NaN => "NaN"
  | Infinity negative => (if negative then "-" else EmptyString) +:+ "Infinity"
  | Finite m e =>
      if m =? 0 then "0"
      else
        match quotient_by_1000 (Z.abs m) e with
        | B64Zero => "0"
        | B64Infinity => (if m <? 0 then "-" else EmptyString) +:+ "Infinity"
        | B64 mx ex =>
            let '(s, t) := decimal_of_binary64 mx ex in
            (if m <? 0 then "-" else EmptyString) +:+ format_decimal s t
        end
  end.

Arguments thousandths_to_string : simpl never.

(** ** The module *)

(** [isSleepAvailable()] *)
Definition isSleepAvailable (σ : world) : bool := sleepInstalled σ.

(** [shellDelays[key]]; a key that was never written reads as [undefined].
    The module writes at numbers only.  A [Timeout] used as a key converts to
    its numeric timer id and reads the slot of that number; [undefined] and a
    [ChildProcess] convert to strings that are no key of the dictionary. *)
Definition get (reg : gmap Z value) (key : value) : value :=
  match key with
  | VNum n => default VUndefined (reg !! n)
  | VTimeout tid => default VUndefined (reg !! Z.of_nat tid)
  | _ => VUndefined
  end.

(** [shellDelays[delayId] = v] *)
Definition store (delayId : Z) (v : value) (σ : world) : world :=
  log (EvStore delayId v) (set_shellDelays (<[delayId := v]>) σ).

(** [setShellDelay(callback, ms, recur)], lines 35-57, up to the [return]:
    the completion handler is [on_exit] below. *)
Definition setShellDelay (callback : callback) (ms : number) (recur : bool)
    (σ : world) : value * world :=
  if negb (isSleepAvailable σ) then
    if recur then setInterval callback ms σ else setTimeout callback ms σ
  else
    let delayId := nextshellDelayId σ in
    let σ1 := set_nextshellDelayId (delayId + 1) σ in
    let '(process, σ2) :=
      exec ("sleep " +:+ thousandths_to_string ms +:+ "s")
           delayId callback ms recur σ1 in
    (VNum delayId, store delayId process σ2).

Definition setShellInterval (callback : callback) (ms : number) (σ : world) :=
  setShellDelay callback ms true σ.

Definition setShellTimeout (callback : callback) (ms : number) (σ : world) :=
  setShellDelay callback ms false σ.

(** The inner loop of [clearShellDelay], lines 96-98. *)
Fixpoint follow (fuel : nat) (reg : gmap Z value) (currentHandle : value)
    : option value :=
  if typeof_number currentHandle then
    match fuel with
    | O => None
    | S fuel' => follow fuel' reg (get reg currentHandle)
    end
  else Some currentHandle.

(** [clearShellDelay(handle)], lines 90-100.  [fuel] bounds the passes of the
    outer loop and, within a pass, the indirections followed. *)
Fixpoint clearShellDelay (fuel : nat) (handle : value) (σ : world) : outcome :=
  match fuel with
  | O => OutOfFuel σ
  | S fuel' =>
      match follow fuel' (shellDelays σ) (get (shellDelays σ) handle) with
      | None => OutOfFuel σ
      | Some currentHandle =>
          match call_kill currentHandle σ with
          | None => Threw TypeError σ
          | Some (true, σ') => Returned VUndefined σ'
          | Some (false, σ') => clearShellDelay fuel' handle σ'
          end
      end
  end.

Definition clearShellTimeout (fuel : nat) (handle : value) (σ : world) : outcome :=
  if isSleepAvailable σ then clearShellDelay fuel handle σ
  else Returned VUndefined (clearTimeout handle σ).

Definition clearShellInterval (fuel : nat) (handle : value) (σ : world) : outcome :=
  if isSleepAvailable σ then clearShellDelay fuel handle σ
  else Returned VUndefined (clearInterval handle σ).

(** ** Running caller code *)

Definition run_call (fuel : nat) (c : call) (σ : world) : outcome :=
  match c with
  | SetShellTimeout cb ms =>
      let '(h, σ') := setShellTimeout cb ms σ in Returned h σ'
  | SetShellInterval cb ms =>
      let '(h, σ') := setShellInterval cb ms σ in Returned h σ'
  | ClearShellTimeout h => clearShellTimeout fuel h σ
  | ClearShellInterval h => clearShellInterval fuel h σ
  end.

(** A sequence of calls; an exception or a call that does not return ends
    it. *)
Fixpoint run_calls (fuel : nat) (cs : list call) (σ : world) : outcome :=
  match cs with
  | [] => Returned VUndefined σ
  | c :: cs' =>
      match run_call fuel c σ with
      | Returned _ σ' => run_calls fuel cs' σ'
      | o => o
      end
  end.

(** [callback()] *)
Definition invoke (fuel : nat) (cb : callback) (σ : world) : outcome :=
  run_calls fuel (cb_body cb) (log (EvInvoke (cb_name cb)) σ).

(** The completion handler given to [exec], lines 44-55, for the child whose
    closure is [c], called with [error]. *)
Definition on_exit (fuel : nat) (c : child) (error : bool) (σ : world) : outcome :=
  if negb error then
    let σ1 :=
      if c_recur c then
        let '(h, σ') := setShellDelay (c_callback c) (c_ms c) true σ in
        store (c_delayId c) h σ'
      else σ in
    invoke fuel (c_callback c) σ1
  else Returned VUndefined σ.

(** [shellSleep(ms)]: a one-shot delay whose callback resolves the promise. *)
Definition shellSleep (ms : number) (σ : world) : world :=
  snd (setShellTimeout (Callback "resolve" []) ms σ).

(** ** The event loop *)

(** What happens, one thing at a time: the program calls the module, a sleep
    process ends on its own, Node processes the exit of a process, the event
    loop runs a completion handler, a native timer fires, the sleep utility
    appears or disappears, or the host uses up a timer id for something
    else. *)
Inductive action :=
| ACall (c : call)
| AExit (pid : nat) (error : bool)
| AClose (pid : nat)
| ADeliver (pid : nat)
| AFire (tid : nat)
| AOracle (installed : bool)
| ASkipId.

Definition perform (fuel : nat) (a : action) (σ : world) : outcome :=
  match a with
  | ACall c => run_call fuel c σ
  | AExit pid error =>
      match children σ !! pid with
      | Some c =>
          match c_status c with
          | Sleeping =>
              Returned VUndefined
                (set_children (<[pid := with_status (Exited error) c]>) σ)
          | _ => Returned VUndefined σ
          end
      | None => Returned VUndefined σ
      end
  | AClose pid =>
      match children σ !! pid with
      | Some c =>
          match c_status c with
          | Exited error =>
              Returned VUndefined
                (set_children (<[pid := with_status (Closed error) c]>) σ)
          | _ => Returned VUndefined σ
          end
      | None => Returned VUndefined σ
      end
  | ADeliver pid =>
      match children σ !! pid with
      | Some c =>
          match c_status c with
          | Exited error | Closed error =>
              on_exit fuel c error
                (set_children (<[pid := with_status Reaped c]>) σ)
          | _ => Returned VUndefined σ
          end
      | None => Returned VUndefined σ
      end
  | AFire tid =>
      match timers σ !! tid with
      | Some t =>
          invoke fuel (t_callback t)
            (if t_repeat t then σ else set_timers (delete tid) σ)
      | None => Returned VUndefined σ
      end
  | AOracle installed => Returned VUndefined (set_sleepInstalled installed σ)
  | ASkipId => Returned VUndefined (set_nextTimerId (S (nextTimerId σ)) σ)
  end.

(** [flips] says whether the sleep utility may appear or disappear while the
    program runs. *)
Definition allowed (flips : bool) (a : action) : Prop :=
  match a with AOracle _ => flips = true | _ => True end.

(** The world an outcome ends in, when there is one. *)
Definition final (o : outcome) : option world :=
  match o with
  | Returned _ σ => Some σ
  | Threw _ σ => Some σ
  | OutOfFuel _ => None
  end.

(** The worlds a program can be in: after module load, and after anything
    that happened and came to an end, by returning or by throwing. *)
Inductive reachable (flips : bool) : world → Prop :=
| reachable_initial installed : reachable flips (initial installed)
| reachable_step σ fuel a σ' :
    reachable flips σ →
    allowed flips a →
    final (perform fuel a σ) = Some σ' →
    reachable flips σ'.

(** Running a list of actions, for concrete scenarios. *)
Fixpoint run (fuel : nat) (acts : list action) (σ : world) : outcome :=
  match acts with
  | [] => Returned VUndefined σ
  | a :: acts' =>
      match perform fuel a σ with
      | Returned _ σ' => run fuel acts' σ'
      | o => o
      end
  end.

(** * Vocabulary of the verification *)

(** ** Outcomes and traces *)


(** No callback is invoked in [evs]. *)
Definition no_invoke (evs : list event) : Prop :=
  Forall (λ e, ∀ name, e ≠ EvInvoke name) evs.

(** ** Frames *)

(** [quiet σ σ']: from [σ] to [σ'] the dictionary and the counter did not
    change, no process was started, and every process kept its closure; only
    statuses, native timers and the trace may differ. *)
Record quiet (σ σ' : world) : Prop := Quiet {
  quiet_shellDelays : shellDelays σ' = shellDelays σ;
  quiet_next : nextshellDelayId σ' = nextshellDelayId σ;
  quiet_oracle : sleepInstalled σ' = sleepInstalled σ;
  quiet_length : length (children σ') = length (children σ);
  quiet_closure : ∀ pid c', children σ' !! pid = Some c' →
    ∃ c, children σ !! pid = Some c ∧ c_delayId c' = c_delayId c
}.

(** [below σ σ']: the counter did not go back and the slots dispensed in [σ]
    hold in [σ'] what they held in [σ]. *)
Definition below (σ σ' : world) : Prop :=
  nextshellDelayId σ ≤ nextshellDelayId σ' ∧
  ∀ k, k < nextshellDelayId σ → shellDelays σ' !! k = shellDelays σ !! k.



(** ** The invariant of the dictionary *)

(** A slot holds a process wrapper of a process that exists, a number that is
    a later slot, or (only when the sleep utility can disappear) a native
    timer. *)
Definition slot_value_ok (flips : bool) (σ : world) (k : Z) (v : value) : Prop :=
  match v with
  | VChildProcess pid => (pid < length (children σ))%nat
  | VNum j => k < j < nextshellDelayId σ
  | VTimeout _ => flips = true
  | VUndefined => False
  end.

(** The slots are exactly the numbers dispensed so far, each holds an
    acceptable value, and every completion handler closes over a dispensed
    slot.  If the sleep utility cannot change, then it is installed or no
    process was ever started. *)
Record inv (flips : bool) (σ : world) : Prop := Inv {
  inv_next : 0 ≤ nextshellDelayId σ;
  inv_dom : ∀ k, is_Some (shellDelays σ !! k) ↔ 0 ≤ k < nextshellDelayId σ;
  inv_val : ∀ k v, shellDelays σ !! k = Some v → slot_value_ok flips σ k v;
  inv_closure : ∀ pid c, children σ !! pid = Some c →
    0 ≤ c_delayId c < nextshellDelayId σ;
  inv_oracle : flips = false → sleepInstalled σ = true ∨ children σ = []
}.

(** Where a chain may end: at the wrapper of a process that exists or, when
    the sleep utility can disappear, at a native timer. *)
Definition terminal (flips : bool) (σ : world) (v : value) : Prop :=
  (∃ pid, v = VChildProcess pid ∧ (pid < length (children σ))%nat) ∨
  (flips = true ∧ ∃ tid, v = VTimeout tid).

(** ** The walk, slot by slot *)

(** [chain reg v slots w]: [v] is the number of the first of [slots], each of
    them holds the number of the next, and the last holds [w], which is no
    number; with no slots at all, [v] is [w]. *)
Fixpoint chain (reg : gmap Z value) (v : value) (slots : list Z) (w : value)
    : Prop :=
  match slots with
  | [] => v = w ∧ typeof_number w = false
  | k :: rest => v = VNum k ∧ chain reg (default VUndefined (reg !! k)) rest w
  end.

(** The world after [n] termination requests on [pid] that failed. *)
Definition after_failures (n : nat) (pid : nat) (σ : world) : world :=
  Nat.iter n (log (EvKill pid false)) σ.

(** ** The statements of the specification *)

(** The single cancellation operation of the specification (section 4.3):
    with the sleep utility available, the walk and the termination request;
    without it, the native cancel operation on the handle itself. *)
Definition cancelDelay (fuel : nat) (handle : value) (σ : world) : outcome :=
  if isSleepAvailable σ then clearShellDelay fuel handle σ
  else Returned VUndefined (clearTimeout handle σ).

(** The invariant of section 3: from every slot of every reachable world the
    walk arrives at a process wrapper. *)
Definition chains_end_at_process (flips : bool) : Prop :=
  ∀ σ k, reachable flips σ → is_Some (shellDelays σ !! k) →
    ∃ fuel pid,
      follow fuel (shellDelays σ) (get (shellDelays σ) (VNum k)) =
        Some (VChildProcess pid).

(** Section 4.2: when the process of a recurring delay has ended naturally
    and the callback of the tick starts, in [σ2], the process of the next
    tick has been started. *)
Definition next_process_before_callback (flips : bool) : Prop :=
  ∀ σ pid c fuel σ2,
    reachable flips σ →
    children σ !! pid = Some c →
    c_status c = Exited false →
    c_recur c = true →
    perform fuel (ADeliver pid) σ = invoke fuel (c_callback c) σ2 →
    length (children σ2) = S (length (children σ)).



(** ** Reading a decimal numeral *)

(** The text before the point and, if there is a point, the text after it. *)
Fixpoint split_point (s : string) : string * option string :=
  match s with
  | EmptyString => (EmptyString, None)
  | String a rest =>
      if Ascii.eqb a "."%char then (EmptyString, Some rest)
      else let '(i, f) := split_point rest in (String a i, f)
  end.

(** [read_unsigned s = Some (m, k)]: [s] is digits, or digits, a point and
    [k] digits, and denotes m / 10 ^ k. *)
Definition read_unsigned (s : string) : option (N * nat) :=
  let '(i, f) := split_point s in
  match NilZero.uint_of_string i, f with
  | Some di, None => Some (N.of_uint di, 0%nat)
  | Some di, Some fs =>
      match NilZero.uint_of_string fs with
      | Some df =>
          Some ((N.of_uint di * 10 ^ N.of_nat (String.length fs) + N.of_uint df)%N,
                String.length fs)
      | None => None
      end
  | None, _ => None
  end.

(** The same with an optional minus sign in front. *)
Definition read_decimal (s : string) : option (Z * nat) :=
  match s with
  | String a rest =>
      if Ascii.eqb a "-"%char then
        match read_unsigned rest with
        | Some (m, k) => Some (- Z.of_N m, k)
        | None => None
        end
      else
        match read_unsigned s with
        | Some (m, k) => Some (Z.of_N m, k)
        | None => None
        end
  | EmptyString => None
  end.

(** ** The decimal expansion of a quotient *)

(** The digits after the point for [r] thousandths, [0 < r < 1000]: three
    digits without the trailing zeros. *)
Definition fraction_digits (r : N) : Decimal.uint :=
  let d1 := (r / 100)%N in
  let d2 := ((r / 10) mod 10)%N in
  let d3 := (r mod 10)%N in
  if (d3 =? 0)%N then
    if (d2 =? 0)%N then digit d1 Decimal.Nil
    else digit d1 (digit d2 Decimal.Nil)
  else digit d1 (digit d2 (digit d3 Decimal.Nil)).

(** The decimal expansion of [a] / 1000: the whole part and, if [a] is no
    multiple of 1000, a point and up to three digits. *)
Definition exact_thousandths (a : N) : string :=
  NilZero.string_of_uint (N.to_uint (a / 1000)) +:+
  (if (a mod 1000 =? 0)%N then EmptyString
   else "." +:+ NilEmpty.string_of_uint (fraction_digits (a mod 1000))).

(** The [w] digits printed for a fraction [f] that does not end in a zero
    are those of its decimal expansion. *)
Definition fixed_ok (w : nat) (f : Z) : bool :=
  (f mod 10 =? 0) || (10 ^ Z.of_nat w <=? f) ||
  String.eqb (NilEmpty.string_of_uint (fixed_digits w f))
    (NilEmpty.string_of_uint
       (fraction_digits (Z.to_N (f * 10 ^ (3 - Z.of_nat w))))).

(** The digits printed for [r] thousandths are at most three, not none, and
    denote [r] / 1000. *)
Definition fraction_ok (r : N) : bool :=
  let u := fraction_digits r in
  let len := String.length (NilEmpty.string_of_uint u) in
  match u with Decimal.Nil => false | _ => true end &&
  (N.of_uint u * 10 ^ (3 - N.of_nat len) =? r)%N && (len <=? 3)%nat.

(** Section 4.1: the command line names exactly [ms] / 1000 seconds, here
    for the durations that are whole numbers of milliseconds. *)
Definition seconds_exact : Prop :=
  ∀ (ms : Z) cb recur σ,
    isSleepAvailable σ = true →
    ∃ seconds m k,
      c_command <$> children (setShellDelay cb ms recur σ).2 !! length (children σ) =
        Some ("sleep " +:+ seconds +:+ "s") ∧
      read_decimal seconds = Some (m, k) ∧
      m * 1000 = ms * 10 ^ Z.of_nat k.

(** ** Scenarios *)

(** The end of a scenario that runs to completion. *)
Definition world_after (fuel : nat) (acts : list action) (σ : world) : world :=
  match run fuel acts σ with
  | Returned _ σ' => σ'
  | _ => σ
  end.

Definition tick : callback := Callback "tick" [].

(** An interval is set while [sleep] is installed and ticks once. *)
Definition one_tick : list action :=
  [ACall (SetShellInterval tick 1000); AExit 0 false; ADeliver 0].

(** An interval is set while [sleep] is installed; [sleep] is removed; the
    first process ends and the recurrence falls back to a native timer. *)
Definition fallback_tick : list action :=
  [ACall (SetShellInterval tick 1000); AOracle false; AExit 0 false; ADeliver 0].


(** An interval is set while [sleep] is installed; [sleep] is removed and the
    first process ends naturally. *)
Definition sleep_removed_before_tick : world :=
  world_after 1
    [ACall (SetShellInterval tick 1000); AOracle false; AExit 0 false]
    (initial true).

(** An interval ticks once and is cancelled; the completion of its second
    process is delivered. *)
Definition interval_stopped : world :=
  world_after 2
    (one_tick ++ [ACall (ClearShellInterval (VNum 0)); ADeliver 1])
    (initial true).

(** A timeout has been set and its process sleeps. *)
Definition timeout_set : world :=
  world_after 1 [ACall (SetShellTimeout tick 1500)] (initial true).

(** A timeout has been set and its process has ended naturally. *)
Definition timeout_expired : world :=
  world_after 1 [ACall (SetShellTimeout tick 1500); AExit 0 false] (initial true).

(** A timeout has been set and its callback has run. *)
Definition timeout_fired : world :=
  world_after 1
    [ACall (SetShellTimeout tick 1500); AExit 0 false; ADeliver 0]
    (initial true).

(** An interval has been set and its first process has ended naturally. *)
Definition interval_expired : world :=
  world_after 1 [ACall (SetShellInterval tick 1000); AExit 0 false] (initial true).

(** An interval has been set and cancelled before its first tick. *)
Definition interval_cancelled : world :=
  world_after 2
    [ACall (SetShellInterval tick 1000); ACall (ClearShellInterval (VNum 0))]
    (initial true).

(** ** Worlds over time *)

(** Any number of things happen, each coming to an end. *)
Inductive evolves : world → world → Prop :=
| evolves_refl σ : evolves σ σ
| evolves_step σ σ' σ'' fuel a :
    evolves σ σ' →
    final (perform fuel a σ') = Some σ'' →
    evolves σ σ''.

(** Two records of one process: the closure of its completion handler and
    its command line are the same. *)
Definition same_closure (c c' : child) : Prop :=
  c_command c' = c_command c ∧ c_delayId c' = c_delayId c ∧
  c_callback c' = c_callback c ∧ c_ms c' = c_ms c ∧ c_recur c' = c_recur c.

(** The life of a process goes one way: sleeping, ended (naturally or with
    an error, for good), noticed by Node, handled. *)
Definition status_le (s s' : proc_status) : Prop :=
  match s, s' with
  | Sleeping, _ => True
  | Exited e, Exited e' | Exited e, Closed e' | Closed e, Closed e' => e = e'
  | Exited _, Reaped | Closed _, Reaped => True
  | Reaped, Reaped => True
  | _, _ => False
  end.

(** [grows σ σ']: the counter did not go back, every slot is still a slot,
    and every process is still there, with its closure, no younger. *)
Record grows (σ σ' : world) : Prop := Grows {
  grows_next : nextshellDelayId σ ≤ nextshellDelayId σ';
  grows_slots : ∀ k, is_Some (shellDelays σ !! k) → is_Some (shellDelays σ' !! k);
  grows_children : ∀ pid c, children σ !! pid = Some c →
    ∃ c', children σ' !! pid = Some c' ∧ same_closure c c' ∧
          status_le (c_status c) (c_status c')
}.

(** [owns σ]: the slot of every process whose completion handler has not run
    yet, and of every process of a delay that does not recur, holds the
    wrapper of that very process. *)
Definition owns (σ : world) : Prop :=
  ∀ pid c, children σ !! pid = Some c →
    c_status c ≠ Reaped ∨ c_recur c = false →
    shellDelays σ !! c_delayId c = Some (VChildProcess pid).

(** No process that still owns a slot owns slot [d]. *)
Definition released (σ : world) (d : Z) : Prop :=
  ∀ pid c, children σ !! pid = Some c →
    c_status c ≠ Reaped ∨ c_recur c = false → c_delayId c ≠ d.

(** The process [pid] ends naturally and its completion handler runs, and so
    on for the [n] processes that follow one another. *)
Fixpoint ticks (n : nat) (pid : nat) (σ : world) : world :=
  match n with
  | O => σ
  | S n' => ticks n' (S pid) (world_after 1 [AExit pid false; ADeliver pid] σ)
  end.

(** An interval at its [i]-th tick.  It was set with handle [h] when there
    were [p] processes: since then it has dispensed the slots [h] to [h + i],
    of which each but the last names the next and the last holds the wrapper
    of the process now sleeping. *)
Definition interval_at (h : Z) (p : nat) (cb : callback) (ms : number)
    (i : nat)
    (σ : world) : Prop :=
  isSleepAvailable σ = true ∧
  nextshellDelayId σ = h + Z.of_nat i + 1 ∧
  length (children σ) = (p + i + 1)%nat ∧
  children σ !! (p + i)%nat =
    Some (Child ("sleep " +:+ thousandths_to_string ms +:+ "s")
            (h + Z.of_nat i) cb ms true Sleeping) ∧
  (∀ j, (j < i)%nat →
     shellDelays σ !! (h + Z.of_nat j) = Some (VNum (h + Z.of_nat j + 1))) ∧
  shellDelays σ !! (h + Z.of_nat i) = Some (VChildProcess (p + i)).

(** [paired σ]: slots and processes were dispensed together, the [n]-th
    process for the [n]-th slot. *)
Definition paired (σ : world) : Prop :=
  Z.of_nat (length (children σ)) = nextshellDelayId σ ∧
  ∀ pid c, children σ !! pid = Some c → c_delayId c = Z.of_nat pid.

(** * Verification *)

(** ** What the cancellation path leaves alone *)

Lemma quiet_refl σ : quiet σ σ.
Proof. split; eauto. Qed.

Lemma quiet_trans σ1 σ2 σ3 : quiet σ1 σ2 → quiet σ2 σ3 → quiet σ1 σ3.
Proof.
  intros [A1 A2 A3 A4 A5] [B1 B2 B3 B4 B5]. split; try congruence.
  intros pid c3 H3. destruct (B5 _ _ H3) as (c2 & H2 & E2).
  destruct (A5 _ _ H2) as (c1 & H1 & E1). exists c1. split; [done | congruence].
Qed.

Lemma quiet_log e σ : quiet σ (log e σ).
Proof. split; simpl; eauto. Qed.

Lemma quiet_set_status pid c st σ :
  children σ !! pid = Some c →
  quiet σ (set_children (<[pid := with_status st c]>) σ).
Proof.
  intros Hc. split; simpl; try done.
  - by rewrite length_insert.
  - intros p c' Hp. destruct (decide (p = pid)) as [-> | Hne].
    + rewrite list_lookup_insert_eq in Hp by (by eapply lookup_lt_Some).
      exists c. by simplify_eq.
    + rewrite list_lookup_insert_ne in Hp by done. by exists c'.
Qed.

Lemma quiet_kill pid σ : quiet σ (kill pid σ).2.
Proof.
  unfold kill. destruct (children σ !! pid) as [c |] eqn:Hc; simpl.
  - destruct (c_status c); simpl; try apply quiet_log.
    eapply quiet_trans; [by apply quiet_set_status | apply quiet_log].
  - apply quiet_log.
Qed.

Lemma quiet_clearTimeout h σ : quiet σ (clearTimeout h σ).
Proof.
  unfold clearTimeout. eapply quiet_trans; [| apply quiet_log].
  destruct h; try apply quiet_refl. split; simpl; eauto.
Qed.

(** A cancellation that returns has been quiet. *)
Lemma clearShellDelay_quiet fuel handle σ v σ' :
  clearShellDelay fuel handle σ = Returned v σ' → quiet σ σ'.
Proof.
  revert σ. induction fuel as [| fuel IH]; intros σ; simpl; [done |].
  destruct (follow _ _ _) as [cur |]; [| done].
  destruct cur as [| n | pid | tid]; simpl; try done.
  pose proof (quiet_kill pid σ) as Hq.
  destruct (kill pid σ) as [[] σ1]; simpl in *.
  - by intros [= _ <-].
  - intros H. eapply quiet_trans; [exact Hq | by apply IH].
Qed.

(** So has a cancellation that throws. *)
Lemma clearShellDelay_threw fuel handle σ e σ' :
  clearShellDelay fuel handle σ = Threw e σ' → quiet σ σ'.
Proof.
  revert σ. induction fuel as [| fuel IH]; intros σ; simpl; [done |].
  destruct (follow _ _ _) as [cur |]; [| done].
  destruct cur as [| n | pid | tid]; simpl;
    try (intros H; inversion H; apply quiet_refl).
  pose proof (quiet_kill pid σ) as Hq.
  destruct (kill pid σ) as [[] σ1]; simpl in *; [done |].
  intros H. eapply quiet_trans; [exact Hq | by eapply IH].
Qed.

(** ** The walk *)

(** More fuel does not change where a walk ends. *)
Lemma follow_mono fuel fuel' reg cur v :
  follow fuel reg cur = Some v → (fuel ≤ fuel')%nat → follow fuel' reg cur = Some v.
Proof.
  revert fuel' cur. induction fuel as [| fuel IH]; intros fuel' cur; simpl.
  - destruct cur; simpl; try done; destruct fuel'; simpl; done.
  - intros H Hle. destruct fuel' as [| fuel']; [lia |]. simpl.
    destruct (typeof_number cur); [| done]. apply IH; [done | lia].
Qed.

(** A kill that fails changes nothing but the trace. *)
Lemma kill_false pid σ :
  (kill pid σ).1 = false → (kill pid σ).2 = log (EvKill pid false) σ.
Proof.
  unfold kill. destruct (children σ !! pid) as [c |]; [| done].
  by destruct (c_status c).
Qed.

Lemma kill_sleeping pid c σ :
  children σ !! pid = Some c → c_status c = Sleeping →
  kill pid σ =
    (true, log (EvKill pid true)
             (set_children (<[pid := with_status (Exited true) c]>) σ)).
Proof. intros H1 H2. unfold kill. by rewrite H1, H2. Qed.

Lemma kill_exited pid c error σ :
  children σ !! pid = Some c → c_status c = Exited error →
  kill pid σ = (true, log (EvKill pid true) σ).
Proof. intros H1 H2. unfold kill. by rewrite H1, H2. Qed.

(** [kill] reports success exactly when the wrapper holds its handle. *)
Lemma kill_reports pid σ :
  (kill pid σ).1 =
    match children σ !! pid with
    | Some c => has_handle (c_status c)
    | None => false
    end.
Proof.
  unfold kill. destruct (children σ !! pid) as [c |]; [| done].
  by destruct (c_status c).
Qed.

Lemma kill_trace pid σ :
  trace (kill pid σ).2 = trace σ ++ [EvKill pid (kill pid σ).1].
Proof.
  unfold kill. destruct (children σ !! pid) as [c |]; [| done].
  by destruct (c_status c).
Qed.

(** ** The invariant of the dictionary *)

Lemma inv_initial flips installed : inv flips (initial installed).
Proof.
  split; simpl.
  - done.
  - intros k. rewrite lookup_empty. split; [by intros [? ?] | lia].
  - intros k v. by rewrite lookup_empty.
  - intros pid c. by rewrite lookup_nil.
  - by right.
Qed.

Lemma inv_quiet flips σ σ' : inv flips σ → quiet σ σ' → inv flips σ'.
Proof.
  intros [I0 I1 I2 I3 I4] [Q1 Q2 Q3 Q4 Q5]. split.
  - by rewrite Q2.
  - intros k. rewrite Q1, Q2. apply I1.
  - intros k v. rewrite Q1. intros Hk. specialize (I2 k v Hk).
    destruct v; simpl in *; try done; [by rewrite Q2 | by rewrite Q4].
  - intros pid c' Hc. destruct (Q5 _ _ Hc) as (c & Hc0 & ->).
    rewrite Q2. by eapply I3.
  - intros Hf. destruct (I4 Hf) as [H | H]; [left; congruence | right].
    apply nil_length_inv. rewrite Q4, H. done.
Qed.

(** The timers are no part of the invariant. *)
Lemma inv_native_set flips repeat cb ms σ :
  inv flips σ → inv flips (native_set repeat cb ms σ).2.
Proof. intros H. eapply inv_quiet; [exact H |]. split; simpl; eauto. Qed.

Lemma inv_delete_timer flips tid σ :
  inv flips σ → inv flips (set_timers (delete tid) σ).
Proof. intros H. eapply inv_quiet; [exact H |]. split; simpl; eauto. Qed.

(** What a scheduling call does when the sleep utility is there. *)
Lemma setShellDelay_available cb ms recur σ :
  isSleepAvailable σ = true →
  setShellDelay cb ms recur σ =
    (VNum (nextshellDelayId σ),
     store (nextshellDelayId σ) (VChildProcess (length (children σ)))
       (log (EvExec (length (children σ))
               ("sleep " +:+ thousandths_to_string ms +:+ "s"))
          (set_children
             (λ cs, cs ++ [Child ("sleep " +:+ thousandths_to_string ms +:+ "s")
                             (nextshellDelayId σ) cb ms recur Sleeping])
             (set_nextshellDelayId (nextshellDelayId σ + 1) σ)))).
Proof. intros H. unfold setShellDelay. by rewrite H. Qed.

Lemma setShellDelay_unavailable cb ms recur σ :
  isSleepAvailable σ = false →
  setShellDelay cb ms recur σ = native_set recur cb ms σ.
Proof. intros H. unfold setShellDelay. rewrite H. by destruct recur. Qed.

Lemma inv_setShellDelay flips cb ms recur σ :
  inv flips σ → inv flips (setShellDelay cb ms recur σ).2.
Proof.
  intros Hinv. destruct (isSleepAvailable σ) eqn:Ha.
  2: { rewrite setShellDelay_unavailable by done. by apply inv_native_set. }
  rewrite setShellDelay_available by done.
  destruct Hinv as [I0 I1 I2 I3 I4]. split; simpl.
  - lia.
  - intros k. rewrite lookup_insert. case_decide as E.
    + subst k. split; [lia | by eauto].
    + rewrite I1. lia.
  - intros k v. rewrite lookup_insert. case_decide as E.
    + intros [= <-]. simpl. rewrite length_app. simpl. lia.
    + intros Hk. specialize (I2 k v Hk).
      destruct v; simpl in *; try done; [lia |].
      rewrite length_app. simpl. lia.
  - intros pid c. rewrite lookup_app_Some. intros [Hc | [_ Hc]].
    + specialize (I3 _ _ Hc). lia.
    + apply list_lookup_singleton_Some in Hc as [_ <-]. simpl. lia.
  - intros _. left. exact Ha.
Qed.

Lemma clearShellDelay_final_quiet fuel handle σ σ' :
  final (clearShellDelay fuel handle σ) = Some σ' → quiet σ σ'.
Proof.
  destruct (clearShellDelay fuel handle σ) as [v σ1 | e σ1 | σ1] eqn:E;
    simpl; intros [= <-].
  - by eapply clearShellDelay_quiet.
  - by eapply clearShellDelay_threw.
Qed.

Lemma clearShellTimeout_final_quiet fuel handle σ σ' :
  final (clearShellTimeout fuel handle σ) = Some σ' → quiet σ σ'.
Proof.
  unfold clearShellTimeout. destruct (isSleepAvailable σ).
  - apply clearShellDelay_final_quiet.
  - simpl. intros [= <-]. apply quiet_clearTimeout.
Qed.

Lemma clearShellInterval_final_quiet fuel handle σ σ' :
  final (clearShellInterval fuel handle σ) = Some σ' → quiet σ σ'.
Proof.
  unfold clearShellInterval. destruct (isSleepAvailable σ).
  - apply clearShellDelay_final_quiet.
  - simpl. intros [= <-]. apply quiet_clearTimeout.
Qed.

Lemma inv_run_call flips fuel c σ σ' :
  inv flips σ → final (run_call fuel c σ) = Some σ' → inv flips σ'.
Proof.
  intros Hinv. destruct c as [cb ms | cb ms | h | h]; simpl.
  - pose proof (inv_setShellDelay flips cb ms false σ Hinv) as H.
    unfold setShellTimeout. destruct (setShellDelay cb ms false σ).
    simpl. by intros [= <-].
  - pose proof (inv_setShellDelay flips cb ms true σ Hinv) as H.
    unfold setShellInterval. destruct (setShellDelay cb ms true σ).
    simpl. by intros [= <-].
  - intros H. eapply inv_quiet; [exact Hinv |].
    by eapply clearShellTimeout_final_quiet.
  - intros H. eapply inv_quiet; [exact Hinv |].
    by eapply clearShellInterval_final_quiet.
Qed.

Lemma inv_run_calls flips fuel cs σ σ' :
  inv flips σ → final (run_calls fuel cs σ) = Some σ' → inv flips σ'.
Proof.
  revert σ. induction cs as [| c cs IH]; intros σ Hinv; simpl.
  - by intros [= <-].
  - destruct (run_call fuel c σ) as [v σ1 | e σ1 | σ1] eqn:E; simpl.
    + apply IH. eapply inv_run_call; [exact Hinv |]. by rewrite E.
    + intros [= <-]. eapply inv_run_call; [exact Hinv |]. by rewrite E.
    + done.
Qed.

Lemma inv_invoke flips fuel cb σ σ' :
  inv flips σ → final (invoke fuel cb σ) = Some σ' → inv flips σ'.
Proof.
  intros Hinv. unfold invoke. apply inv_run_calls.
  eapply inv_quiet; [exact Hinv | apply quiet_log].
Qed.

(** Overwriting a dispensed slot with the handle a nested scheduling call
    returned keeps the invariant. *)
Lemma inv_reschedule flips cb ms σ delayId :
  inv flips σ →
  0 ≤ delayId < nextshellDelayId σ →
  (flips = false → isSleepAvailable σ = true) →
  inv flips (store delayId (setShellDelay cb ms true σ).1
               (setShellDelay cb ms true σ).2).
Proof.
  intros Hinv Hd Hor.
  pose proof (inv_setShellDelay flips cb ms true σ Hinv) as H.
  assert (slot_value_ok flips (setShellDelay cb ms true σ).2 delayId
            (setShellDelay cb ms true σ).1 ∧
          nextshellDelayId σ ≤ nextshellDelayId (setShellDelay cb ms true σ).2)
    as [Hv Hle].
  { destruct (isSleepAvailable σ) eqn:Ha.
    - rewrite setShellDelay_available by done. simpl. lia.
    - rewrite setShellDelay_unavailable by done. simpl.
      split; [| lia]. destruct flips; [done |]. by specialize (Hor eq_refl). }
  destruct (setShellDelay cb ms true σ) as [h σ1]. simpl in *.
  destruct H as [I0 I1 I2 I3 I4]. split; simpl; try done.
  - intros k. rewrite lookup_insert. case_decide as E; [| apply I1].
    subst k. split; [lia | eauto].
  - intros k v. rewrite lookup_insert. case_decide as E.
    + intros [= <-]. subst k. destruct h; done.
    + intros Hk. specialize (I2 k v Hk). destruct v; done.
Qed.

Lemma inv_on_exit flips fuel pid c error σ σ' :
  inv flips σ → children σ !! pid = Some c →
  final (on_exit fuel c error σ) = Some σ' → inv flips σ'.
Proof.
  intros Hinv Hc. unfold on_exit. destruct error; simpl.
  { by intros [= <-]. }
  apply inv_invoke. destruct (c_recur c); [| done].
  pose proof (inv_reschedule flips (c_callback c) (c_ms c) σ (c_delayId c) Hinv) as H.
  destruct (setShellDelay (c_callback c) (c_ms c) true σ) as [h σ1].
  apply H.
  - by eapply inv_closure.
  - intros Hf. destruct (inv_oracle _ _ Hinv Hf) as [? | Hnil]; [done |].
    rewrite Hnil in Hc. by rewrite lookup_nil in Hc.
Qed.

Lemma inv_perform flips fuel a σ σ' :
  inv flips σ → allowed flips a →
  final (perform fuel a σ) = Some σ' → inv flips σ'.
Proof.
  intros Hinv Hal. destruct a as [c | pid error | pid | pid | tid | installed |]; simpl.
  - by apply inv_run_call.
  - destruct (children σ !! pid) as [c |] eqn:Hc; [| by intros [= <-]].
    destruct (c_status c); simpl; try by intros [= <-].
    intros [= <-]. eapply inv_quiet; [exact Hinv | by apply quiet_set_status].
  - destruct (children σ !! pid) as [c |] eqn:Hc; [| by intros [= <-]].
    destruct (c_status c); simpl; try by intros [= <-].
    intros [= <-]. eapply inv_quiet; [exact Hinv | by apply quiet_set_status].
  - destruct (children σ !! pid) as [c |] eqn:Hc; [| by intros [= <-]].
    destruct (c_status c) as [| error | error |]; simpl; try by intros [= <-].
    all: apply (inv_on_exit flips fuel pid (with_status Reaped c));
      [ eapply inv_quiet; [exact Hinv | by apply quiet_set_status]
      | simpl; apply list_lookup_insert_eq; by eapply lookup_lt_Some ].
  - destruct (timers σ !! tid) as [t |]; [| by intros [= <-]].
    apply inv_invoke. destruct (t_repeat t); [done |].
    by apply inv_delete_timer.
  - intros [= <-]. simpl in Hal. destruct Hinv as [I0 I1 I2 I3 I4].
    split; simpl; try done. intros Hf. congruence.
  - intros [= <-]. eapply inv_quiet; [exact Hinv |]. split; simpl; eauto.
Qed.

Lemma reachable_inv flips σ : reachable flips σ → inv flips σ.
Proof.
  induction 1 as [installed | σ fuel a σ' _ IH Hal Hstep].
  - apply inv_initial.
  - eapply inv_perform; [exact IH | exact Hal | exact Hstep].
Qed.

(** ** Indirection chains *)

Lemma inv_follow flips σ :
  inv flips σ →
  ∀ (n : nat) (k : Z),
    0 ≤ k < nextshellDelayId σ →
    nextshellDelayId σ - k ≤ Z.of_nat n →
    ∃ v, follow n (shellDelays σ) (get (shellDelays σ) (VNum k)) = Some v ∧
         terminal flips σ v.
Proof.
  intros Hinv. induction n as [| n IH]; intros k Hk Hn; [lia |].
  destruct (proj2 (inv_dom _ _ Hinv k) Hk) as [v0 Hv0].
  pose proof (inv_val _ _ Hinv k v0 Hv0) as Hok.
  simpl. rewrite Hv0. simpl.
  destruct v0 as [| j | pid | tid]; simpl in *.
  - done.
  - apply IH; lia.
  - exists (VChildProcess pid). split; [done |]. left. eauto.
  - exists (VTimeout tid). split; [done |]. right. eauto.
Qed.

(** ** Cancellation *)

(** The inner loop takes one step for every slot of the chain, no fewer. *)
Lemma chain_follow reg slots :
  ∀ v w, chain reg v slots w →
    follow (length slots) reg v = Some w ∧
    ∀ m, (m < length slots)%nat → follow m reg v = None.
Proof.
  induction slots as [| k rest IH]; intros v w; simpl.
  - intros [-> Hw]. rewrite Hw. split; [done | lia].
  - intros [-> Hc]. destruct (IH _ _ Hc) as [IH1 IH2]. simpl. split; [done |].
    intros [| m] Hm; [done |]. simpl. apply IH2. lia.
Qed.


(** One pass of the outer loop whose walk arrives at a process. *)
Lemma clearShellDelay_pass fuel n handle pid σ :
  follow n (shellDelays σ) (get (shellDelays σ) handle) = Some (VChildProcess pid) →
  (n ≤ fuel)%nat →
  clearShellDelay (S fuel) handle σ =
    if (kill pid σ).1 then Returned VUndefined (kill pid σ).2
    else clearShellDelay fuel handle (kill pid σ).2.
Proof.
  intros Hf Hle. simpl. rewrite (follow_mono _ _ _ _ _ Hf Hle). simpl.
  by destruct (kill pid σ) as [[] σ1].
Qed.

Lemma after_failures_succ n pid σ :
  after_failures (S n) pid σ = after_failures n pid (log (EvKill pid false) σ).
Proof. unfold after_failures. by rewrite Nat.iter_succ_r. Qed.

Lemma after_failures_trace n pid σ :
  trace (after_failures n pid σ) = trace σ ++ replicate n (EvKill pid false).
Proof.
  revert σ. induction n as [| n IH]; intros σ.
  - simpl. by rewrite app_nil_r.
  - rewrite after_failures_succ, IH. simpl. by rewrite <- app_assoc.
Qed.

(** A termination request that fails is made again on every pass, as long as
    there is fuel for the walk: nothing but the trace changes in between. *)
Lemma clearShellDelay_spins handle pid n :
  ∀ fuel σ,
    follow n (shellDelays σ) (get (shellDelays σ) handle) = Some (VChildProcess pid) →
    (∀ m, (m < n)%nat →
       follow m (shellDelays σ) (get (shellDelays σ) handle) = None) →
    (kill pid σ).1 = false →
    clearShellDelay (n + fuel) handle σ = OutOfFuel (after_failures fuel pid σ).
Proof.
  induction fuel as [| fuel IH]; intros σ Hf Hnone Hk.
  - rewrite Nat.add_0_r. destruct n as [| n]; [done |].
    simpl. by rewrite Hnone by lia.
  - rewrite Nat.add_succ_r, (clearShellDelay_pass _ n _ pid) by (done || lia).
    rewrite Hk, (kill_false _ _ Hk), after_failures_succ.
    apply IH; try done.
    rewrite kill_reports in Hk |- *. exact Hk.
Qed.

(** C1.  While the sleep utility is available, cancelling is
    [clearShellDelay].  When the value read at [handle] is the first of a
    chain of slots, each holding the number of the next and the last holding
    the wrapper of a process, the inner loop goes through exactly these slots
    -- with less fuel than there are slots it has not arrived, and nothing has
    been requested -- and the termination of that process is requested.  If
    the request is reported successful the call returns after this one pass,
    the dictionary untouched.  If it is reported failed, the whole walk is
    made again from [handle] in the world as it is then, and so on: with fuel
    for [fuel] more passes, [fuel] requests have been made, all failed, and
    the call has not returned. *)
Theorem clearShellDelay_walk handle slots pid σ :
  isSleepAvailable σ = true →
  chain (shellDelays σ) (get (shellDelays σ) handle) slots (VChildProcess pid) →
  let n := length slots in
  (∀ fuel,
     clearShellTimeout fuel handle σ = clearShellDelay fuel handle σ ∧
     clearShellInterval fuel handle σ = clearShellDelay fuel handle σ) ∧
  follow n (shellDelays σ) (get (shellDelays σ) handle) = Some (VChildProcess pid) ∧
  (∀ m, (m < n)%nat →
     follow m (shellDelays σ) (get (shellDelays σ) handle) = None) ∧
  (∀ fuel, (fuel ≤ n)%nat → clearShellDelay fuel handle σ = OutOfFuel σ) ∧
  ((kill pid σ).1 = true →
     ∀ fuel, (n < fuel)%nat →
       clearShellDelay fuel handle σ = Returned VUndefined (kill pid σ).2 ∧
       trace (kill pid σ).2 = trace σ ++ [EvKill pid true] ∧
       shellDelays (kill pid σ).2 = shellDelays σ) ∧
  ((kill pid σ).1 = false →
     ∀ fuel,
       clearShellDelay (S (n + fuel)) handle σ =
         clearShellDelay (n + fuel) handle (log (EvKill pid false) σ) ∧
       clearShellDelay (n + fuel) handle σ =
         OutOfFuel (after_failures fuel pid σ) ∧
       trace (after_failures fuel pid σ) =
         trace σ ++ replicate fuel (EvKill pid false) ∧
       shellDelays (after_failures fuel pid σ) = shellDelays σ).
Proof.
  intros Ha Hchain n. destruct (chain_follow _ _ _ _ Hchain) as [Hf Hnone].
  fold n in Hf, Hnone.
  split; [| split; [exact Hf | split; [exact Hnone | split; [| split]]]].
  - intros fuel. unfold clearShellTimeout, clearShellInterval. by rewrite Ha.
  - intros [| fuel] Hle; [done |]. simpl. by rewrite Hnone by lia.
  - intros Hk [| fuel] Hlt; [lia |].
    rewrite (clearShellDelay_pass _ n _ pid) by (done || lia). rewrite Hk.
    split; [done |]. split.
    + by rewrite kill_trace, Hk.
    + apply (quiet_kill pid σ).
  - intros Hk fuel. split; [| split; [| split]].
    + rewrite (clearShellDelay_pass _ n _ pid) by (done || lia).
      by rewrite Hk, (kill_false _ _ Hk).
    + by apply clearShellDelay_spins.
    + apply after_failures_trace.
    + unfold after_failures. induction fuel as [| fuel IH]; [done |].
      simpl. exact IH.
Qed.

(** C9.  With the sleep utility available, cancelling a number that is not a
    key of the dictionary reads [undefined], leaves the inner loop at once and
    calls [kill] on it: a TypeError, whichever of the two exported functions
    is used, and nothing has changed when it is thrown. *)
Theorem clear_unknown_handle_throws fuel n σ :
  isSleepAvailable σ = true →
  shellDelays σ !! n = None →
  clearShellTimeout (S fuel) (VNum n) σ = Threw TypeError σ ∧
  clearShellInterval (S fuel) (VNum n) σ = Threw TypeError σ.
Proof.
  intros Ha Hn. unfold clearShellTimeout, clearShellInterval. rewrite Ha.
  simpl. rewrite Hn. simpl. by destruct fuel.
Qed.

(** C5.  [clearShellInterval] and [clearShellTimeout] do the same thing on
    every handle in every world, the fallback case included, and both are the
    specification's [cancelDelay]. *)
Theorem clearShellInterval_clearShellTimeout fuel handle σ :
  clearShellInterval fuel handle σ = clearShellTimeout fuel handle σ ∧
  clearShellTimeout fuel handle σ = cancelDelay fuel handle σ.
Proof. split; reflexivity. Qed.

(** ** The fallback *)

(** C7.  While the sleep utility is unavailable, a scheduling call is the
    native [setTimeout] or [setInterval] on the same callback and duration and
    returns its handle as it is; the dictionary and the counter play no part
    (whatever they hold, the call does the same and hands them back
    unchanged) and no process is started.  The cancel calls pass their handle
    unchanged to the native [clearTimeout] and [clearInterval]. *)
Theorem fallback_delegates fuel cb ms handle σ :
  isSleepAvailable σ = false →
  setShellTimeout cb ms σ = setTimeout cb ms σ ∧
  setShellInterval cb ms σ = setInterval cb ms σ ∧
  (∀ recur,
     (setShellDelay cb ms recur σ).1 = VTimeout (nextTimerId σ) ∧
     shellDelays (setShellDelay cb ms recur σ).2 = shellDelays σ ∧
     nextshellDelayId (setShellDelay cb ms recur σ).2 = nextshellDelayId σ ∧
     children (setShellDelay cb ms recur σ).2 = children σ ∧
     trace (setShellDelay cb ms recur σ).2 =
       trace σ ++ [EvNativeSet (nextTimerId σ) recur (cb_name cb) ms] ∧
     ∀ reg next,
       setShellDelay cb ms recur
         (set_nextshellDelayId next (set_shellDelays (λ _, reg) σ)) =
       ((setShellDelay cb ms recur σ).1,
        set_nextshellDelayId next
          (set_shellDelays (λ _, reg) (setShellDelay cb ms recur σ).2))) ∧
  clearShellTimeout fuel handle σ = Returned VUndefined (clearTimeout handle σ) ∧
  clearShellInterval fuel handle σ = Returned VUndefined (clearInterval handle σ) ∧
  shellDelays (clearTimeout handle σ) = shellDelays σ ∧
  shellDelays (clearInterval handle σ) = shellDelays σ ∧
  trace (clearTimeout handle σ) = trace σ ++ [EvNativeClear handle] ∧
  trace (clearInterval handle σ) = trace σ ++ [EvNativeClear handle].
Proof.
  intros Ha.
  unfold setShellTimeout, setShellInterval, clearShellTimeout, clearShellInterval.
  rewrite !setShellDelay_unavailable by done. rewrite Ha.
  repeat split; try done;
    try (rewrite ?setShellDelay_unavailable by done; done);
    try (by destruct handle).
  intros reg next. by rewrite !setShellDelay_unavailable by done.
Qed.

(** ** The completion handler *)


(** A scheduling call invokes no callback. *)
Lemma setShellDelay_trace cb ms recur σ :
  ∃ evs, trace (setShellDelay cb ms recur σ).2 = trace σ ++ evs ∧ no_invoke evs.
Proof.
  destruct (isSleepAvailable σ) eqn:Ha.
  - rewrite setShellDelay_available by done. simpl.
    eexists [_; _]. rewrite <- app_assoc. split; [done |].
    by repeat constructor.
  - rewrite setShellDelay_unavailable by done. simpl.
    eexists [_]. split; [done |]. by repeat constructor.
Qed.

(** ** What a scheduling call and a callback can write *)









(** ** Reachable worlds *)

Lemma run_reachable flips fuel acts :
  ∀ σ v σ',
    reachable flips σ → Forall (allowed flips) acts →
    run fuel acts σ = Returned v σ' → reachable flips σ'.
Proof.
  induction acts as [| a acts IH]; intros σ v σ' Hr Hal; simpl.
  - by intros [= _ <-].
  - inversion Hal as [| ? ? Ha Hrest]; subst.
    destruct (perform fuel a σ) as [v1 σ1 | ? ? | ?] eqn:E; try done.
    apply IH; [| done]. eapply reachable_step; [exact Hr | exact Ha |].
    by rewrite E.
Qed.

Lemma world_after_reachable flips fuel acts installed :
  Forall (allowed flips) acts →
  reachable flips (world_after fuel acts (initial installed)).
Proof.
  intros Hal. unfold world_after.
  destruct (run fuel acts (initial installed)) as [v σ' | ? ? | ?] eqn:E;
    try apply reachable_initial.
  eapply run_reachable; [apply reachable_initial | exact Hal | exact E].
Qed.

(** A cancellation that follows one indirection to a sleeping process. *)
Lemma cancel_through_one_indirection fuel h k pid c σ :
  isSleepAvailable σ = true →
  shellDelays σ !! h = Some (VNum k) →
  shellDelays σ !! k = Some (VChildProcess pid) →
  children σ !! pid = Some c →
  c_status c = Sleeping →
  clearShellInterval (S (S fuel)) (VNum h) σ =
    Returned VUndefined
      (log (EvKill pid true)
         (set_children (<[pid := with_status (Exited true) c]>) σ)).
Proof.
  intros Ha Hh Hk Hc Hs. unfold clearShellInterval. rewrite Ha.
  simpl. rewrite Hh. simpl. rewrite Hk. simpl.
  assert (follow fuel (shellDelays σ) (VChildProcess pid) =
          Some (VChildProcess pid)) as -> by (by destruct fuel).
  simpl. by rewrite (kill_sleeping pid c).
Qed.

(** ** C2: the recurrence *)

(** The completion handler of a recurring delay whose process ended
    naturally, lines 47-53: the nested call, the store, the callback. *)
Lemma deliver_recurring fuel pid c σ :
  children σ !! pid = Some c →
  c_status c = Exited false ∨ c_status c = Closed false →
  c_recur c = true →
  perform fuel (ADeliver pid) σ =
    invoke fuel (c_callback c)
      (store (c_delayId c)
         (setShellDelay (c_callback c) (c_ms c) true
            (set_children (<[pid := with_status Reaped c]>) σ)).1
         (setShellDelay (c_callback c) (c_ms c) true
            (set_children (<[pid := with_status Reaped c]>) σ)).2).
Proof.
  intros Hc Hs Hr. cbn [perform]. rewrite Hc.
  assert (on_exit fuel (with_status Reaped c) false
            (set_children (<[pid := with_status Reaped c]>) σ) =
          invoke fuel (c_callback c)
            (store (c_delayId c)
               (setShellDelay (c_callback c) (c_ms c) true
                  (set_children (<[pid := with_status Reaped c]>) σ)).1
               (setShellDelay (c_callback c) (c_ms c) true
                  (set_children (<[pid := with_status Reaped c]>) σ)).2)) as E.
  { unfold on_exit.
    cbn [negb with_status c_recur c_callback c_ms c_delayId]. rewrite Hr.
    by destruct (setShellDelay _ _ _ _). }
  by destruct Hs as [-> | ->].
Qed.

(** C2 as stated fails.  In [sleep_removed_before_tick] the process of a
    recurring delay started with the sleep utility has ended naturally.  Its
    completion handler calls [setShellDelay] again and stores the handle in
    slot 0 before the callback runs, but the sleep utility is gone: the
    nested call sets a native timer, no process is started, and what the
    callback finds in slot 0 is the native timer. *)
Lemma recurrence_without_next_process :
  reachable true sleep_removed_before_tick ∧
  children sleep_removed_before_tick !! 0%nat =
    Some (Child "sleep 1s" 0 tick 1000 true (Exited false)) ∧
  (∃ σ2,
     perform 1 (ADeliver 0) sleep_removed_before_tick = invoke 1 tick σ2 ∧
     children σ2 = [Child "sleep 1s" 0 tick 1000 true Reaped] ∧
     shellDelays σ2 !! 0 = Some (VTimeout 0) ∧
     trace σ2 =
       [EvExec 0 "sleep 1s"; EvStore 0 (VChildProcess 0);
        EvNativeSet 0 true "tick" 1000; EvStore 0 (VTimeout 0)]) ∧
  ¬ next_process_before_callback true.
Proof.
  assert (reachable true sleep_removed_before_tick) as Hr.
  { apply world_after_reachable. by repeat constructor. }
  assert (children sleep_removed_before_tick !! 0%nat =
          Some (Child "sleep 1s" 0 tick 1000 true (Exited false))) as Hc
    by reflexivity.
  pose proof (deliver_recurring 1 0 _ _ Hc (or_introl eq_refl) eq_refl) as E.
  cbn [c_callback c_ms c_delayId] in E.
  split; [exact Hr |]. split; [exact Hc |]. split.
  - eexists. split; [exact E |]. vm_compute. repeat split; reflexivity.
  - intros Hclaim.
    specialize (Hclaim _ 0%nat _ 1%nat _ Hr Hc eq_refl eq_refl E).
    vm_compute in Hclaim. discriminate.
Qed.

(** C2, amended.  When the process of a recurring delay has ended naturally,
    the completion handler calls [setShellDelay] again with the same
    callback, the same duration and [true], stores the handle it returns in
    the slot of the delay, and only then invokes the callback.  If the sleep
    utility is available at that moment, the nested call has started the
    next process, with the same command line, and put its wrapper in a new
    slot, whose number is what the slot of the delay now holds: a
    cancellation of that slot made by the callback goes through the new slot
    and requests the termination of the new process.  If the sleep utility
    is not available, the nested call has set a native repeating timer
    instead, no process has been started, and the slot of the delay holds
    the native timer. *)
Theorem recurrence_before_callback flips fuel pid c σ :
  reachable flips σ →
  children σ !! pid = Some c →
  c_status c = Exited false ∨ c_status c = Closed false →
  c_recur c = true →
  let cb := c_callback c in
  let p := length (children σ) in
  let n := nextshellDelayId σ in
  let tid := nextTimerId σ in
  let command := "sleep " +:+ thousandths_to_string (c_ms c) +:+ "s" in
  let handled := <[pid := with_status Reaped c]> (children σ) in
  (isSleepAvailable σ = true →
   ∃ σ2,
     perform fuel (ADeliver pid) σ = invoke fuel cb σ2 ∧
     invoke fuel cb σ2 =
       run_calls fuel (cb_body cb) (log (EvInvoke (cb_name cb)) σ2) ∧
     trace σ2 =
       trace σ ++
         [EvExec p command; EvStore n (VChildProcess p);
          EvStore (c_delayId c) (VNum n)] ∧
     children σ2 = handled ++ [Child command n cb (c_ms c) true Sleeping] ∧
     shellDelays σ2 =
       <[c_delayId c := VNum n]> (<[n := VChildProcess p]> (shellDelays σ)) ∧
     nextshellDelayId σ2 = n + 1 ∧
     get (shellDelays σ2) (VNum (c_delayId c)) = VNum n ∧
     get (shellDelays σ2) (VNum n) = VChildProcess p ∧
     ∀ fuel', ∃ σ3,
       clearShellInterval (S (S fuel')) (VNum (c_delayId c))
         (log (EvInvoke (cb_name cb)) σ2) = Returned VUndefined σ3 ∧
       trace σ3 = trace σ2 ++ [EvInvoke (cb_name cb); EvKill p true]) ∧
  (isSleepAvailable σ = false →
   ∃ σ2,
     perform fuel (ADeliver pid) σ = invoke fuel cb σ2 ∧
     invoke fuel cb σ2 =
       run_calls fuel (cb_body cb) (log (EvInvoke (cb_name cb)) σ2) ∧
     trace σ2 =
       trace σ ++
         [EvNativeSet tid true (cb_name cb) (c_ms c);
          EvStore (c_delayId c) (VTimeout tid)] ∧
     children σ2 = handled ∧
     shellDelays σ2 = <[c_delayId c := VTimeout tid]> (shellDelays σ) ∧
     nextshellDelayId σ2 = n ∧
     timers σ2 = <[tid := Timer cb (c_ms c) true]> (timers σ)).
Proof.
  intros Hreach Hc Hs Hr cb p n tid command handled.
  pose proof (inv_closure _ _ (reachable_inv _ _ Hreach) _ _ Hc) as Hd.
  pose proof (deliver_recurring fuel pid c σ Hc Hs Hr) as E.
  set (σ0 := set_children (<[pid := with_status Reaped c]>) σ) in E.
  assert (length (children σ0) = p) as Hlen by apply length_insert.
  split; intros Ha.
  - rewrite (setShellDelay_available _ _ _ σ0) in E by exact Ha.
    cbn [fst snd] in E. rewrite Hlen in E.
    change (nextshellDelayId σ0) with n in E. fold cb command in E.
    eexists. split; [exact E |]. split; [done |].
    cbn [store log set_children set_shellDelays set_nextshellDelayId
         shellDelays nextshellDelayId sleepInstalled children timers
         nextTimerId trace].
    split; [by rewrite <- !app_assoc |]. split; [done |]. split; [done |].
    split; [done |].
    assert (∀ reg : gmap Z value,
      <[c_delayId c := VNum n]> (<[n := VChildProcess p]> reg) !! c_delayId c =
        Some (VNum n)) as H1 by (intros; apply lookup_insert_eq).
    assert (∀ reg : gmap Z value,
      <[c_delayId c := VNum n]> (<[n := VChildProcess p]> reg) !! n =
        Some (VChildProcess p)) as H2.
    { intros. rewrite lookup_insert_ne by (subst n; lia).
      apply lookup_insert_eq. }
    split; [cbn [get]; by rewrite H1 |]. split; [cbn [get]; by rewrite H2 |].
    intros fuel'. eexists. split.
    + apply (cancel_through_one_indirection fuel' (c_delayId c) n p
               (Child command n cb (c_ms c) true Sleeping)).
      * exact Ha.
      * apply H1.
      * apply H2.
      * cbn [log set_children children store set_shellDelays
             set_nextshellDelayId].
        change (children σ0) with handled.
        replace p with (length handled) by apply length_insert.
        by apply list_lookup_middle.
      * done.
    + cbn [store log set_children set_shellDelays set_nextshellDelayId trace].
      by rewrite <- !app_assoc.
  - rewrite (setShellDelay_unavailable _ _ _ σ0) in E by exact Ha.
    cbn [native_set fst snd] in E.
    change (nextTimerId σ0) with tid in E. fold cb in E.
    eexists. split; [exact E |]. split; [done |].
    cbn [store log set_children set_shellDelays set_nextshellDelayId
         set_timers set_nextTimerId
         shellDelays nextshellDelayId sleepInstalled children timers
         nextTimerId trace].
    split; [by rewrite <- !app_assoc |]. done.
Qed.

(** ** C3: where indirection chains end *)

(** C3 as stated fails.  After [fallback_tick] slot 0 holds the native timer
    that the recurrence got from [setInterval]: the walk from slot 0 ends
    there, at a value that is neither a number nor a process wrapper. *)
Lemma chain_ends_at_native_timer :
  reachable true (world_after 1 fallback_tick (initial true)) ∧
  shellDelays (world_after 1 fallback_tick (initial true)) !! 0 =
    Some (VTimeout 0) ∧
  (∀ fuel,
     follow fuel (shellDelays (world_after 1 fallback_tick (initial true)))
       (get (shellDelays (world_after 1 fallback_tick (initial true))) (VNum 0)) =
     Some (VTimeout 0)) ∧
  ¬ chains_end_at_process true.
Proof.
  assert (reachable true (world_after 1 fallback_tick (initial true))) as Hr.
  { apply world_after_reachable. by repeat constructor. }
  assert (∀ fuel,
     follow fuel (shellDelays (world_after 1 fallback_tick (initial true)))
       (get (shellDelays (world_after 1 fallback_tick (initial true))) (VNum 0)) =
     Some (VTimeout 0)) as Hf by (intros []; reflexivity).
  repeat split; try done.
  intros Hclaim.
  destruct (Hclaim _ 0 Hr) as (fuel & pid & H); [by eexists |].
  rewrite Hf in H. discriminate.
Qed.

(** C3, amended.  In every reachable world the walk from a slot [k] ends
    within (counter - [k]) steps, at the wrapper of a process that exists or,
    only if the sleep utility can disappear while the program runs, at a
    native timer; and a slot that holds a number holds a later slot, so no
    chain comes back to where it has been. *)
Theorem chains_end flips σ k :
  reachable flips σ →
  is_Some (shellDelays σ !! k) →
  (∃ v,
     follow (Z.to_nat (nextshellDelayId σ - k)) (shellDelays σ)
       (get (shellDelays σ) (VNum k)) = Some v ∧
     ((∃ pid, v = VChildProcess pid ∧ (pid < length (children σ))%nat) ∨
      (flips = true ∧ ∃ tid, v = VTimeout tid))) ∧
  ∀ j, shellDelays σ !! k = Some (VNum j) →
    k < j ∧ is_Some (shellDelays σ !! j).
Proof.
  intros Hr Hk. pose proof (reachable_inv _ _ Hr) as Hinv.
  pose proof (proj1 (inv_dom _ _ Hinv k) Hk) as Hrange. split.
  - apply (inv_follow flips σ Hinv); lia.
  - intros j Hj. pose proof (inv_val _ _ Hinv k _ Hj) as Hok. simpl in Hok.
    split; [lia |]. apply (inv_dom _ _ Hinv). lia.
Qed.

Lemma chains_end_witness :
  (∃ v,
     follow 2 (shellDelays (world_after 1 one_tick (initial true)))
       (get (shellDelays (world_after 1 one_tick (initial true))) (VNum 0)) = Some v ∧
     ((∃ pid, v = VChildProcess pid ∧
         (pid < length (children (world_after 1 one_tick (initial true))))%nat) ∨
      (false = true ∧ ∃ tid, v = VTimeout tid))) ∧
  ∀ j, shellDelays (world_after 1 one_tick (initial true)) !! 0 = Some (VNum j) →
    0 < j ∧ is_Some (shellDelays (world_after 1 one_tick (initial true)) !! j).
Proof.
  apply (chains_end false (world_after 1 one_tick (initial true)) 0).
  - apply world_after_reachable. repeat constructor.
  - vm_compute. eauto.
Defined.

(** ** C6: errors thrown to the caller *)






(** ** C8: the command line *)

Lemma append_String a s r : String a s +:+ r = String a (s +:+ r).
Proof. reflexivity. Qed.

Lemma append_Empty r : EmptyString +:+ r = r.
Proof. reflexivity. Qed.

Lemma append_Empty_r s : s +:+ EmptyString = s.
Proof. induction s as [| a s IH]; [done |]. by rewrite append_String, IH. Qed.

(** Digits hold no point: the split happens after them. *)
Lemma split_digits u rest :
  split_point (NilEmpty.string_of_uint u +:+ rest) =
    (NilEmpty.string_of_uint u +:+ (split_point rest).1, (split_point rest).2).
Proof.
  induction u as [| u IH | u IH | u IH | u IH | u IH
                  | u IH | u IH | u IH | u IH | u IH];
    cbn [NilEmpty.string_of_uint]; rewrite ?append_String, ?append_Empty;
    cbn [split_point Ascii.eqb Bool.eqb]; rewrite ?IH; try reflexivity.
  by destruct (split_point rest).
Qed.

Lemma split_whole d rest :
  split_point (NilZero.string_of_uint d +:+ rest) =
    (NilZero.string_of_uint d +:+ (split_point rest).1, (split_point rest).2).
Proof.
  destruct d; try apply split_digits.
  cbn [NilZero.string_of_uint]. rewrite !append_String, !append_Empty.
  cbn [split_point Ascii.eqb Bool.eqb]. by destruct (split_point rest).
Qed.

(** The whole part reads back as the number printed. *)
Lemma read_whole d :
  ∃ d', NilZero.uint_of_string (NilZero.string_of_uint d) = Some d' ∧
        N.of_uint d' = N.of_uint d.
Proof.
  destruct d; try (eexists; split; [by apply NilZero.usu | done]).
  eexists. split; [apply NilZero.usu_nil | done].
Qed.

Lemma read_fraction u :
  u ≠ Decimal.Nil →
  NilZero.uint_of_string (NilEmpty.string_of_uint u) = Some u.
Proof.
  intros Hu. rewrite <- (NilZero.usu u Hu). by destruct u.
Qed.

(** The thousand possible fractions, one by one. *)
Lemma fraction_ok_all r : (r < 1000)%N → fraction_ok r = true.
Proof.
  intros Hr.
  assert (forallb fraction_ok (map N.of_nat (seq 0 1000)) = true) as H
    by (vm_compute; reflexivity).
  rewrite forallb_forall in H. apply H. apply in_map_iff.
  exists (N.to_nat r). split; [lia |]. apply in_seq. lia.
Qed.

Lemma fraction_spec r :
  (r < 1000)%N →
  fraction_digits r ≠ Decimal.Nil ∧
  (N.of_uint (fraction_digits r) *
     10 ^ (3 - N.of_nat
                 (String.length (NilEmpty.string_of_uint (fraction_digits r))))
   = r)%N ∧
  (String.length (NilEmpty.string_of_uint (fraction_digits r)) ≤ 3)%nat.
Proof.
  intros Hr. pose proof (fraction_ok_all r Hr) as H. unfold fraction_ok in H.
  apply andb_prop in H as [H H3]. apply andb_prop in H as [H1 H2].
  repeat split.
  - intros E. by rewrite E in H1.
  - by apply N.eqb_eq.
  - by apply Nat.leb_le.
Qed.

(** The decimal expansion of [a] / 1000 denotes [a] / 1000. *)
Lemma read_unsigned_thousandths (a : N) :
  ∃ m k,
    read_unsigned (exact_thousandths a) = Some (m, k) ∧
    (m * 1000 = a * 10 ^ N.of_nat k)%N.
Proof.
  unfold exact_thousandths, read_unsigned. rewrite split_whole.
  destruct (read_whole (N.to_uint (a / 1000))) as (d' & Hd & Hv).
  rewrite DecimalN.Unsigned.of_to in Hv.
  pose proof (N.div_mod a 1000 ltac:(done)) as Ha.
  destruct (a mod 1000 =? 0)%N eqn:Hr.
  - apply N.eqb_eq in Hr. cbn [split_point fst snd].
    rewrite append_Empty_r, Hd. eexists _, _. split; [done |].
    rewrite Hv. simpl. lia.
  - destruct (fraction_spec (a mod 1000)) as (Hnil & Hval & Hlen).
    { by apply N.mod_lt. }
    rewrite append_String. cbn [split_point Ascii.eqb Bool.eqb fst snd].
    rewrite append_Empty, append_Empty_r, Hd, read_fraction by done.
    eexists _, _. split; [done |]. rewrite Hv. clear Hv Hd Hr.
    set (len := String.length _) in *.
    set (f := N.of_uint (fraction_digits _)) in *.
    assert (1000 = 10 ^ (3 - N.of_nat len) * 10 ^ N.of_nat len)%N as E1000.
    { rewrite <- N.pow_add_r.
      by replace (3 - N.of_nat len + N.of_nat len)%N with 3%N by lia. }
    set (P := (10 ^ N.of_nat len)%N) in *.
    set (Q := (10 ^ (3 - N.of_nat len))%N) in *.
    set (q := (a / 1000)%N) in *. set (r := (a mod 1000)%N) in *.
    clearbody P Q q r f. subst a r.
    revert E1000. generalize 1000%N. intros K ->. ring.
Qed.

(** The whole part starts with a digit, never with a minus sign. *)
Lemma whole_first_char d rest :
  ∃ c s, NilZero.string_of_uint d +:+ rest = String c s ∧
         Ascii.eqb c "-"%char = false.
Proof. destruct d; eexists _, _; split; reflexivity. Qed.

(** ... with the sign in front, for a whole number [ms] of either sign. *)
Lemma read_exact_thousandths (ms : Z) :
  ∃ m k,
    read_decimal
      ((if ms <? 0 then "-" else EmptyString) +:+
       exact_thousandths (Z.to_N (Z.abs ms))) = Some (m, k) ∧
    m * 1000 = ms * 10 ^ Z.of_nat k.
Proof.
  destruct (read_unsigned_thousandths (Z.to_N (Z.abs ms))) as (m & k & Hr & Hm).
  assert (Z.of_N m * 1000 = Z.abs ms * 10 ^ Z.of_nat k) as Hz.
  { apply (f_equal Z.of_N) in Hm. rewrite !N2Z.inj_mul, N2Z.inj_pow in Hm.
    rewrite Z2N.id in Hm by lia. rewrite nat_N_Z in Hm. exact Hm. }
  destruct (ms <? 0) eqn:Hneg.
  - apply Z.ltb_lt in Hneg. rewrite append_String, append_Empty.
    cbn [read_decimal Ascii.eqb Bool.eqb]. rewrite Hr.
    eexists _, _. split; [done |]. lia.
  - apply Z.ltb_ge in Hneg. rewrite append_Empty.
    unfold exact_thousandths in Hr |- *.
    destruct (whole_first_char (N.to_uint (Z.to_N (Z.abs ms) / 1000))
                (if (Z.to_N (Z.abs ms) mod 1000 =? 0)%N then EmptyString
                 else "." +:+ NilEmpty.string_of_uint
                                (fraction_digits (Z.to_N (Z.abs ms) mod 1000))))
      as (c & s & Hs & Hc).
    rewrite Hs in Hr |- *. cbn [read_decimal]. rewrite Hc, Hr.
    eexists _, _. split; [done |]. lia.
Qed.

(** *** Rounding to binary64 *)


Lemma round_div_close n d :
  0 < d → - d ≤ 2 * n - 2 * d * round_div n d ≤ d.
Proof.
  intros Hd. unfold round_div.
  pose proof (Z.div_mod n d ltac:(lia)) as E.
  pose proof (Z.mod_pos_bound n d Hd) as Hr.
  destruct (Z.ltb_spec (2 * (n mod d)) d);
    [| destruct (Z.ltb_spec d (2 * (n mod d))); [| destruct (Z.even (n / d))]];
    lia.
Qed.

Lemma round_div_scale k n d :
  0 < k → 0 < d → round_div (k * n) (k * d) = round_div n d.
Proof.
  intros Hk Hd. unfold round_div.
  rewrite Z.div_mul_cancel_l by lia. rewrite Z.mul_mod_distr_l by lia.
  destruct (Z.ltb_spec (2 * (n mod d)) d), (Z.ltb_spec (2 * (k * (n mod d))) (k * d));
    try nia; try done.
  destruct (Z.ltb_spec d (2 * (n mod d))), (Z.ltb_spec (k * d) (2 * (k * (n mod d))));
    try nia; done.
Qed.

Lemma scale2_scale k n d e :
  scale2 (k * n) (k * d) e = (k * (scale2 n d e).1, k * (scale2 n d e).2).
Proof. unfold scale2. destruct (0 <=? e); simpl; f_equal; ring. Qed.

(** [d * 2 ^ p ≤ n], with the powers of two brought to one side. *)
Lemma above_pow2_iff n d p K :
  0 ≤ K → 0 ≤ p + K →
  above_pow2 n d p = true ↔ d * 2 ^ (p + K) ≤ n * 2 ^ K.
Proof.
  intros HK HpK. unfold above_pow2, scale2.
  destruct (Z.leb_spec 0 (- p)) as [Hp | Hp].
  - rewrite Z.leb_le.
    replace K with (- p + (p + K)) at 2 by lia.
    rewrite (Z.pow_add_r 2 (- p) (p + K)) by lia.
    rewrite Z.mul_assoc. apply Z.mul_le_mono_pos_r.
    apply Z.pow_pos_nonneg; lia.
  - rewrite Z.leb_le. replace (- - p) with p by lia.
    rewrite (Z.pow_add_r 2 p K) by lia.
    rewrite Z.mul_assoc. apply Z.mul_le_mono_pos_r.
    apply Z.pow_pos_nonneg; lia.
Qed.

Lemma above_pow2_mono n d p p' :
  0 ≤ d → above_pow2 n d p = true → p' ≤ p → above_pow2 n d p' = true.
Proof.
  intros Hd H Hle.
  rewrite (above_pow2_iff n d p (Z.max 0 (- p'))) in H by lia.
  rewrite (above_pow2_iff n d p' (Z.max 0 (- p'))) by lia.
  assert (2 ^ (p' + Z.max 0 (- p')) ≤ 2 ^ (p + Z.max 0 (- p')))
    by (apply Z.pow_le_mono_r; lia).
  nia.
Qed.

Lemma above_pow2_scale k n d p :
  0 < k → above_pow2 (k * n) (k * d) p = above_pow2 n d p.
Proof.
  intros Hk. apply eq_true_iff_eq.
  rewrite (above_pow2_iff _ _ p (Z.max 0 (- p))) by lia.
  rewrite (above_pow2_iff n d p (Z.max 0 (- p))) by lia.
  nia.
Qed.

Lemma log2_fraction_spec n d :
  0 < n → 0 < d →
  above_pow2 n d (log2_fraction n d) = true ∧
  above_pow2 n d (log2_fraction n d + 1) = false.
Proof.
  intros Hn Hd. unfold log2_fraction.
  pose proof (Z.log2_spec n Hn) as Sn. pose proof (Z.log2_spec d Hd) as Sd.
  pose proof (Z.log2_nonneg n) as Nn. pose proof (Z.log2_nonneg d) as Nd.
  set (ln := Z.log2 n) in *. set (ld := Z.log2 d) in *.
  rewrite <- !Z.add_1_r in Sn, Sd. rewrite !Z.pow_add_r in Sn, Sd by lia.
  change (2 ^ 1) with 2 in *.
  assert (0 < 2 ^ ln) by (apply Z.pow_pos_nonneg; lia).
  assert (0 < 2 ^ ld) by (apply Z.pow_pos_nonneg; lia).
  destruct (above_pow2 n d (ln - ld)) eqn:E.
  - split; [done |]. apply not_true_iff_false.
    rewrite (above_pow2_iff _ _ _ (ld + 1)) by lia.
    replace (ln - ld + 1 + (ld + 1)) with (ln + 1 + 1) by lia.
    rewrite !Z.pow_add_r by lia. change (2 ^ 1) with 2. nia.
  - replace (ln - ld - 1 + 1) with (ln - ld) by lia. split; [| done].
    rewrite (above_pow2_iff _ _ _ (ld + 1)) by lia.
    replace (ln - ld - 1 + (ld + 1)) with ln by lia.
    rewrite !Z.pow_add_r by lia. change (2 ^ 1) with 2. nia.
Qed.

Lemma log2_fraction_unique n d p :
  0 < d →
  above_pow2 n d p = true → above_pow2 n d (p + 1) = false →
  0 < n → log2_fraction n d = p.
Proof.
  intros Hd H1 H2 Hn. destruct (log2_fraction_spec n d Hn Hd) as [G1 G2].
  destruct (Z.lt_trichotomy (log2_fraction n d) p) as [Hlt | [-> | Hgt]]; [| done |].
  - rewrite (above_pow2_mono n d p (log2_fraction n d + 1)) in G2 by (done || lia).
    done.
  - rewrite (above_pow2_mono n d (log2_fraction n d) (p + 1)) in H2 by (done || lia).
    done.
Qed.

Lemma log2_fraction_scale k n d :
  0 < k → 0 < n → 0 < d → log2_fraction (k * n) (k * d) = log2_fraction n d.
Proof.
  intros Hk Hn Hd. destruct (log2_fraction_spec n d Hn Hd) as [G1 G2].
  apply log2_fraction_unique; try nia; by rewrite above_pow2_scale.
Qed.

Lemma binary64_of_fraction_scale k n d :
  0 < k → 0 < n → 0 < d →
  binary64_of_fraction (k * n) (k * d) = binary64_of_fraction n d.
Proof.
  intros Hk Hn Hd. unfold binary64_of_fraction.
  rewrite log2_fraction_scale by done. rewrite scale2_scale.
  destruct (scale2 n d _) as [n' d'] eqn:E. cbn [fst snd].
  assert (0 < d') as Hd'.
  { unfold scale2 in E.
    destruct (Z.leb_spec 0 (- Z.max (log2_fraction n d - 52) (-1074)));
      injection E as <- <-; [done |].
    apply Z.mul_pos_pos; [done |]. apply Z.pow_pos_nonneg; lia. }
  by rewrite round_div_scale.
Qed.

(** *** The digits of the quotient of a whole number of milliseconds *)

Lemma binary64_eqb_eq x y : binary64_eqb x y = true ↔ x = y.
Proof.
  destruct x as [| m e |], y as [| m' e' |]; simpl; try done.
  rewrite andb_true_iff, !Z.eqb_eq. split; [by intros [-> ->] | by intros [= -> ->]].
Qed.

(** The value of a binary64 is within half a unit in the last place of the
    fraction it was rounded from. *)
Lemma binary64_close n d m e :
  0 < d → binary64_of_fraction n d = B64 m e → e ≤ 0 →
  - d ≤ 2 * (n * 2 ^ (- e)) - 2 * d * m ≤ d.
Proof.
  intros Hd. unfold binary64_of_fraction.
  set (e0 := Z.max _ _).
  destruct (scale2 n d (- e0)) as [n' d'] eqn:E.
  destruct (round_div n' d' =? 0); [done |].
  destruct (Z.eqb_spec (round_div n' d') (2 ^ 53)) as [Hm | Hm].
  - destruct (971 <? e0 + 1); [done |]. intros [= <- <-] He.
    unfold scale2 in E. destruct (Z.leb_spec 0 (- e0)); [| lia].
    injection E as <- <-.
    pose proof (round_div_close (n * 2 ^ (- e0)) d Hd) as C. rewrite Hm in C.
    replace (- e0) with (1 + - (e0 + 1)) in C by lia.
    rewrite Z.pow_add_r in C by lia. change (2 ^ 1) with 2 in C.
    change (2 ^ 53) with (2 * 2 ^ 52) in C. lia.
  - destruct (971 <? e0); [done |]. intros [= <- <-] He.
    unfold scale2 in E. destruct (Z.leb_spec 0 (- e0)); [| lia].
    injection E as <- <-. apply round_div_close. done.
Qed.

Lemma log2_thousandths a :
  0 < a < 1000 * 2 ^ 43 → -10 ≤ log2_fraction a 1000 ≤ 42.
Proof.
  intros Ha. destruct (log2_fraction_spec a 1000) as [G1 G2]; [lia | lia |].
  set (p := log2_fraction a 1000) in *. split.
  - destruct (Z.le_gt_cases (-10) p); [done |]. exfalso.
    rewrite (above_pow2_mono a 1000 (-10) (p + 1)) in G2; [done | lia | | lia].
    unfold above_pow2, scale2. simpl. apply Z.leb_le. lia.
  - destruct (Z.le_gt_cases p 42); [done |]. exfalso.
    pose proof (above_pow2_mono a 1000 p 43 ltac:(lia) G1 ltac:(lia)) as H43.
    unfold above_pow2, scale2 in H43. simpl in H43. apply Z.leb_le in H43. lia.
Qed.

(** The exponent of the quotient of a whole number of milliseconds below
    2 ^ 43 seconds: the last place is worth less than a thousandth. *)
Lemma thousandths_shape a mx ex :
  0 < a < 1000 * 2 ^ 43 →
  binary64_of_fraction a 1000 = B64 mx ex →
  -62 ≤ ex ≤ -10.
Proof.
  intros Ha. pose proof (log2_thousandths a Ha) as Hp.
  unfold binary64_of_fraction.
  rewrite Z.max_l by lia. set (e0 := log2_fraction a 1000 - 52).
  assert (-62 ≤ e0 ≤ -10) as He0 by (subst e0; lia).
  unfold scale2. destruct (Z.leb_spec 0 (- e0)); [| lia].
  destruct (_ =? 0); [done |].
  destruct (Z.eqb_spec (round_div (a * 2 ^ (- e0)) 1000) (2 ^ 53)) as [Hm | Hm].
  - destruct (971 <? e0 + 1); [done |]. intros [= <- <-].
    assert (e0 ≠ -10); [| lia]. intros E10.
    pose proof (round_div_close (a * 2 ^ (- e0)) 1000 ltac:(lia)) as C.
    rewrite Hm, E10 in C. change (2 ^ (- -10)) with 1024 in C.
    change (2 ^ 53) with 9007199254740992 in C.
    change (2 ^ 43) with 8796093022208 in Ha. lia.
  - destruct (971 <? e0); [done |]. by intros [= <- <-].
Qed.

Lemma small_multiple x P : 1024 ≤ P → -1000 ≤ x * P ≤ 1000 → x = 0.
Proof. intros. nia. Qed.

(** Below 2 ^ 43 seconds, a decimal with at most three digits after the
    point that rounds to the quotient is the quotient. *)
Lemma candidate_is_exact a mx ex s t :
  0 < a < 1000 * 2 ^ 43 →
  binary64_of_fraction a 1000 = B64 mx ex →
  -3 ≤ t →
  candidate (B64 mx ex) s t = true →
  s * 10 ^ (t + 3) = a.
Proof.
  intros Ha Hx Ht Hc. pose proof (thousandths_shape a mx ex Ha Hx) as He.
  pose proof (binary64_close a 1000 mx ex ltac:(lia) Hx ltac:(lia)) as Ca.
  unfold candidate in Hc. apply andb_prop in Hc as [Hs Hc]. apply Z.ltb_lt in Hs.
  destruct (scale10 s 1 t) as [n d] eqn:E. apply binary64_eqb_eq in Hc.
  assert (0 < d ∧ n * 1000 = s * 10 ^ (t + 3) * d) as [Hd Hn].
  { unfold scale10 in E. destruct (Z.leb_spec 0 t); injection E as <- <-.
    - split; [lia |]. rewrite Z.pow_add_r by lia. change (10 ^ 3) with 1000. ring.
    - assert (t = -1 ∨ t = -2 ∨ t = -3) as [-> | [-> | ->]] by lia;
        simpl; split; lia. }
  pose proof (binary64_close n d mx ex Hd Hc ltac:(lia)) as Cn.
  assert (1024 ≤ 2 ^ (- ex)) as HP.
  { change 1024 with (2 ^ 10). apply Z.pow_le_mono_r; lia. }
  set (P := 2 ^ (- ex)) in *. set (b := s * 10 ^ (t + 3)) in *.
  set (X := 2 * (b * P) - 2000 * mx).
  assert (d * X = 1000 * (2 * (n * P) - 2 * d * mx)) as EX.
  { unfold X. transitivity (2 * (b * d) * P - 2000 * d * mx); [ring |].
    rewrite <- Hn. ring. }
  assert (-1000 ≤ X ≤ 1000) as HX by nia.
  assert (b - a = 0); [| lia].
  apply (small_multiple _ P HP). unfold X in HX. lia.
Qed.

(** The quotient itself, written with [t + 3 ≥ 0] of its three decimals
    dropped, rounds to the quotient. *)
Lemma exact_is_candidate a mx ex g t :
  0 < a →
  binary64_of_fraction a 1000 = B64 mx ex →
  -3 ≤ t →
  g * 10 ^ (t + 3) = a →
  candidate (B64 mx ex) g t = true.
Proof.
  intros Ha Hx Ht Hg.
  assert (0 < 10 ^ (t + 3)) by (apply Z.pow_pos_nonneg; lia).
  assert (0 < g) by nia.
  unfold candidate. apply andb_true_intro. split; [by apply Z.ltb_lt |].
  unfold scale10. destruct (Z.leb_spec 0 t).
  - apply binary64_eqb_eq. rewrite <- Hx, <- Hg.
    rewrite Z.pow_add_r by lia. change (10 ^ 3) with 1000.
    assert (0 < 10 ^ t) by (apply Z.pow_pos_nonneg; lia).
    replace (g * (10 ^ t * 1000)) with (1000 * (g * 10 ^ t)) by ring.
    symmetry. apply (binary64_of_fraction_scale 1000 (g * 10 ^ t) 1); nia.
  - apply binary64_eqb_eq. rewrite <- Hx, <- Hg.
    assert (t = -1 ∨ t = -2 ∨ t = -3) as [-> | [-> | ->]] by lia.
    + change (binary64_of_fraction g 10 =
              binary64_of_fraction (g * 100) (100 * 10)).
      replace (g * 100) with (100 * g) by ring.
      symmetry. apply (binary64_of_fraction_scale 100 g 10); lia.
    + change (binary64_of_fraction g 100 =
              binary64_of_fraction (g * 10) (10 * 100)).
      replace (g * 10) with (10 * g) by ring.
      symmetry. apply (binary64_of_fraction_scale 10 g 100); lia.
    + change (binary64_of_fraction g 1000 =
              binary64_of_fraction (g * 1) 1000).
      by replace (g * 1) with g by ring.
Qed.

(** ... and is one of the two multiples next to the binary64 value. *)
Lemma exact_is_neighbour a mx ex g t :
  0 < a < 1000 * 2 ^ 43 →
  binary64_of_fraction a 1000 = B64 mx ex →
  -3 ≤ t →
  g * 10 ^ (t + 3) = a →
  g = (scale10 (scale2 mx 1 ex).1 (scale2 mx 1 ex).2 (- t)).1 /
      (scale10 (scale2 mx 1 ex).1 (scale2 mx 1 ex).2 (- t)).2 ∨
  g = (scale10 (scale2 mx 1 ex).1 (scale2 mx 1 ex).2 (- t)).1 /
      (scale10 (scale2 mx 1 ex).1 (scale2 mx 1 ex).2 (- t)).2 + 1.
Proof.
  intros Ha Hx Ht Hg. pose proof (thousandths_shape a mx ex Ha Hx) as He.
  pose proof (binary64_close a 1000 mx ex ltac:(lia) Hx ltac:(lia)) as Ca.
  assert (1024 ≤ 2 ^ (- ex)) as HP.
  { change 1024 with (2 ^ 10). apply Z.pow_le_mono_r; lia. }
  unfold scale2. destruct (Z.leb_spec 0 ex); [lia |]. cbn [fst snd].
  set (P := 2 ^ (- ex)) in *. rewrite Z.mul_1_l.
  unfold scale10. destruct (Z.leb_spec 0 (- t)); cbn [fst snd].
  - assert (∀ n, (g - 1) * P < n < (g + 1) * P → g = n / P ∨ g = n / P + 1) as Hdiv.
    { intros n Hn. pose proof (Z.div_mod n P ltac:(lia)) as E.
      pose proof (Z.mod_pos_bound n P ltac:(lia)) as Hr.
      assert (g - 1 ≤ n / P) by nia. assert (n / P ≤ g) by nia. lia. }
    apply Hdiv.
    assert (t = 0 ∨ t = -1 ∨ t = -2 ∨ t = -3) as [-> | [-> | [-> | ->]]] by lia;
      simpl in *; nia.
  - left. replace (- - t) with t by lia.
    assert (0 < 10 ^ t) by (apply Z.pow_pos_nonneg; lia).
    rewrite Z.pow_add_r in Hg by lia. change (10 ^ 3) with 1000 in Hg.
    assert (mx = g * (P * 10 ^ t)) as ->.
    { assert (2 * (g * 10 ^ t * P - mx) = 0); [| lia].
      assert (- 1 ≤ 2 * (g * 10 ^ t * P - mx) ≤ 1); [| lia].
      subst a. lia. }
    rewrite Z.div_mul; [done | nia].
Qed.

Lemma digits_at_Some mx ex t s :
  digits_at mx ex t = Some s → candidate (B64 mx ex) s t = true.
Proof.
  unfold digits_at. destruct (scale2 mx 1 ex) as [xn xd].
  destruct (scale10 xn xd (- t)) as [n d].
  destruct (candidate _ (n / d) t) eqn:E1, (candidate _ (n / d + 1) t) eqn:E2;
    simpl; try done; intros [= <-]; try done.
  by repeat case_match.
Qed.

Lemma digits_at_found mx ex t g :
  candidate (B64 mx ex) g t = true →
  g = (scale10 (scale2 mx 1 ex).1 (scale2 mx 1 ex).2 (- t)).1 /
      (scale10 (scale2 mx 1 ex).1 (scale2 mx 1 ex).2 (- t)).2 ∨
  g = (scale10 (scale2 mx 1 ex).1 (scale2 mx 1 ex).2 (- t)).1 /
      (scale10 (scale2 mx 1 ex).1 (scale2 mx 1 ex).2 (- t)).2 + 1 →
  is_Some (digits_at mx ex t).
Proof.
  unfold digits_at. destruct (scale2 mx 1 ex) as [xn xd]. cbn [fst snd].
  destruct (scale10 xn xd (- t)) as [n d]. cbn [fst snd].
  intros Hc [-> | ->]; rewrite Hc.
  - destruct (candidate _ (n / d + 1) t); simpl; eauto.
  - destruct (candidate _ (n / d) t); simpl; eauto.
Qed.

Lemma shortest_unfold fuel mx ex t :
  shortest fuel mx ex t =
    match digits_at mx ex t with
    | Some s => (s, t)
    | None =>
        match fuel with
        | O => exact_digits mx ex
        | S fuel' => shortest fuel' mx ex (t - 1)
        end
    end.
Proof. by destruct fuel. Qed.

(** The search stops at the first level, from the top, that has digits. *)
Lemma shortest_first mx ex (k : nat) :
  ∀ fuel t,
    (k ≤ fuel)%nat → t = -3 + Z.of_nat k →
    is_Some (digits_at mx ex (-3)) →
    ∃ s t',
      shortest fuel mx ex t = (s, t') ∧ -3 ≤ t' ≤ t ∧
      digits_at mx ex t' = Some s ∧
      ∀ u, t' < u ≤ t → digits_at mx ex u = None.
Proof.
  induction k as [| k IH]; intros fuel t Hf -> H3; rewrite shortest_unfold.
  - destruct H3 as [s0 H0]. change (-3 + Z.of_nat 0) with (-3).
    rewrite H0. exists s0, (-3).
    split; [done |]. split; [lia |]. split; [done |]. intros; lia.
  - destruct (digits_at mx ex (-3 + Z.of_nat (S k))) as [s |] eqn:E.
    + exists s, (-3 + Z.of_nat (S k)).
      split; [done |]. split; [lia |]. split; [done |]. intros; lia.
    + destruct fuel as [| fuel]; [lia |].
      destruct (IH fuel (-3 + Z.of_nat k) ltac:(lia) eq_refl H3)
        as (s & t' & Hs & Ht & Hd & Hnone).
      replace (-3 + Z.of_nat (S k) - 1) with (-3 + Z.of_nat k) by lia.
      exists s, t'. split; [done |]. split; [lia |]. split; [done |].
      intros u Hu. destruct (decide (u = -3 + Z.of_nat (S k))) as [-> | Hne];
        [done |]. apply Hnone. lia.
Qed.

(** Below 2 ^ 43 seconds the digits printed for the quotient of a whole
    number of milliseconds are its own. *)
Lemma decimal_of_thousandths a mx ex :
  0 < a < 1000 * 2 ^ 43 →
  binary64_of_fraction a 1000 = B64 mx ex →
  ∃ s t,
    decimal_of_binary64 mx ex = (s, t) ∧ -3 ≤ t ∧ s * 10 ^ (t + 3) = a ∧
    (t < 0 → s mod 10 ≠ 0).
Proof.
  intros Ha Hx. pose proof (thousandths_shape a mx ex Ha Hx) as He.
  assert (∀ t g, -3 ≤ t → g * 10 ^ (t + 3) = a → is_Some (digits_at mx ex t))
    as Hfound.
  { intros t g Ht Hg. apply (digits_at_found mx ex t g).
    - apply (exact_is_candidate a); [lia | done | done | done].
    - by apply (exact_is_neighbour a). }
  unfold decimal_of_binary64. destruct (scale2 mx 1 ex) as [xn xd].
  set (top := Z.log2 (xn / xd + 1) / 3 + 1).
  assert (1 ≤ top) as Htop.
  { subst top. pose proof (Z.log2_nonneg (xn / xd + 1)).
    pose proof (Z.div_pos (Z.log2 (xn / xd + 1)) 3 ltac:(lia) ltac:(lia)). lia. }
  destruct (shortest_first mx ex (Z.to_nat (top + 3))
              (Z.to_nat (top - Z.min ex 0)) top)
    as (s & t & Hs & Ht & Hd & Hnone); [lia | lia | |].
  { apply (Hfound (-3) a); [lia |]. simpl. lia. }
  exists s, t. split; [done |]. split; [lia |].
  pose proof (candidate_is_exact a mx ex s t Ha Hx ltac:(lia)
                (digits_at_Some _ _ _ _ Hd)) as Hval.
  split; [done |]. intros Hneg Hmod.
  destruct (Hfound (t + 1) (s / 10) ltac:(lia)) as [s' Hs'].
  { rewrite <- Hval. replace (t + 1 + 3) with (1 + (t + 3)) by lia.
    rewrite Z.pow_add_r by lia. change (10 ^ 1) with 10.
    pose proof (Z.div_mod s 10 ltac:(lia)). nia. }
  rewrite Hnone in Hs' by lia. done.
Qed.

(** The quotient of a whole number of milliseconds below 2 ^ 43 seconds is
    neither zero nor infinite. *)
Lemma thousandths_finite a :
  0 < a < 1000 * 2 ^ 43 →
  ∃ mx ex, binary64_of_fraction a 1000 = B64 mx ex.
Proof.
  intros Ha. pose proof (log2_thousandths a Ha) as Hp.
  unfold binary64_of_fraction.
  rewrite Z.max_l by lia. set (e0 := log2_fraction a 1000 - 52).
  assert (-62 ≤ e0 ≤ -10) as He0 by (subst e0; lia).
  unfold scale2. destruct (Z.leb_spec 0 (- e0)); [| lia].
  pose proof (round_div_close (a * 2 ^ (- e0)) 1000 ltac:(lia)) as C.
  assert (1024 ≤ 2 ^ (- e0)) as HP.
  { change 1024 with (2 ^ 10). apply Z.pow_le_mono_r; lia. }
  destruct (Z.eqb_spec (round_div (a * 2 ^ (- e0)) 1000) 0) as [Hz | Hz].
  { rewrite Hz in C. nia. }
  destruct (_ =? 2 ^ 53).
  - destruct (Z.ltb_spec 971 (e0 + 1)); [lia |]. eauto.
  - destruct (Z.ltb_spec 971 e0); [lia |]. eauto.
Qed.

(** The fractions of one, two and three digits that do not end in a zero,
    one by one. *)
Lemma fixed_fraction (w : nat) f :
  (1 ≤ w ≤ 3)%nat → 0 ≤ f < 10 ^ Z.of_nat w → f mod 10 ≠ 0 →
  NilEmpty.string_of_uint (fixed_digits w f) =
    NilEmpty.string_of_uint
      (fraction_digits (Z.to_N (f * 10 ^ (3 - Z.of_nat w)))).
Proof.
  intros Hw Hf Hmod.
  assert (forallb (λ w, forallb (fixed_ok w) (map Z.of_nat (seq 0 1000)))
            [1; 2; 3]%nat = true) as H by (vm_compute; reflexivity).
  rewrite forallb_forall in H. specialize (H w).
  rewrite forallb_forall in H.
  assert (fixed_ok w f = true) as Hok.
  { apply H.
    - assert (w = 1 ∨ w = 2 ∨ w = 3)%nat as [-> | [-> | ->]] by lia;
        simpl; tauto.
    - apply in_map_iff. exists (Z.to_nat f). split; [lia |].
      apply in_seq.
      assert (10 ^ Z.of_nat w ≤ 10 ^ 3) by (apply Z.pow_le_mono_r; lia).
      lia. }
  unfold fixed_ok in Hok. apply orb_prop in Hok as [Hz | Hs];
    [apply orb_prop in Hz as [Hz | Hz] |].
  - apply Z.eqb_eq in Hz. done.
  - apply Z.leb_le in Hz. lia.
  - by apply String.eqb_eq in Hs.
Qed.

(** Such digits are printed as the decimal expansion of the quotient. *)
Lemma format_thousandths a s t :
  0 < a < 1000 * 2 ^ 43 →
  -3 ≤ t →
  s * 10 ^ (t + 3) = a →
  (t < 0 → s mod 10 ≠ 0) →
  format_decimal s t = exact_thousandths (Z.to_N a).
Proof.
  intros Ha Ht Hs Hcanon. unfold format_decimal, exact_thousandths.
  change 1000%N with (Z.to_N 1000).
  rewrite <- Z2N.inj_div, <- Z2N.inj_mod by lia.
  change (2 ^ 43) with 8796093022208 in Ha.
  destruct (Z.leb_spec 0 t) as [Hpos | Hneg].
  - rewrite Z.pow_add_r in Hs by lia. change (10 ^ 3) with 1000 in Hs.
    assert (s * 10 ^ t < 10 ^ 21) as Hlt.
    { change (10 ^ 21) with 1000000000000000000000. lia. }
    apply Z.ltb_lt in Hlt. rewrite Hlt. cbn [andb].
    assert (a = s * 10 ^ t * 1000) as -> by lia.
    rewrite Z.div_mul, Z.mod_mul by lia.
    change (Z.to_N 0 =? 0)%N with true. cbn iota.
    by rewrite append_Empty_r.
  - cbn [andb]. destruct (Z.ltb_spec t 0); [| lia]. cbn [andb].
    assert (0 < 10 ^ (t + 3)) by (apply Z.pow_pos_nonneg; lia).
    assert (1 ≤ s) by nia.
    assert (∃ w : nat, (1 ≤ w ≤ 3)%nat ∧ t = - Z.of_nat w) as (w & Hw & ->).
    { exists (Z.to_nat (- t)). lia. }
    replace (- - Z.of_nat w) with (Z.of_nat w) by lia.
    replace (- Z.of_nat w + 3) with (3 - Z.of_nat w) in * by lia.
    assert (0 < 10 ^ Z.of_nat w) as HW by (apply Z.pow_pos_nonneg; lia).
    assert (10 ^ Z.of_nat w * 10 ^ (3 - Z.of_nat w) = 1000) as H1000.
    { rewrite <- Z.pow_add_r by lia.
      by replace (Z.of_nat w + (3 - Z.of_nat w)) with 3 by lia. }
    assert (10 ^ Z.of_nat w ≤ s * 10 ^ 6) as Hle.
    { change (10 ^ 6) with 1000000. nia. }
    apply Z.leb_le in Hle. rewrite Hle.
    rewrite Nat2Z.id.
    assert (a / 1000 = s / 10 ^ Z.of_nat w) as ->.
    { rewrite <- Hs, <- H1000. apply Z.div_mul_cancel_r; lia. }
    assert (a mod 1000 = s mod 10 ^ Z.of_nat w * 10 ^ (3 - Z.of_nat w)) as ->.
    { rewrite <- Hs, <- H1000. apply Z.mul_mod_distr_r; lia. }
    pose proof (Z.mod_pos_bound s (10 ^ Z.of_nat w) HW) as Hr.
    assert ((s mod 10 ^ Z.of_nat w) mod 10 = s mod 10) as Hlast.
    { apply Z.mod_mod_divide.
      exists (10 ^ (Z.of_nat w - 1)).
      replace (Z.of_nat w) with (Z.of_nat w - 1 + 1) at 1 by lia.
      rewrite Z.pow_add_r by lia. done. }
    assert (s mod 10 ^ Z.of_nat w ≠ 0) as Hnz.
    { intros E. rewrite E in Hlast. apply Hcanon; [lia | done]. }
    destruct (N.eqb_spec (Z.to_N (s mod 10 ^ Z.of_nat w * 10 ^ (3 - Z.of_nat w))) 0)
      as [Hz | _].
    { exfalso. nia. }
    rewrite (fixed_fraction w) by (done || (rewrite Hlast; apply Hcanon; lia)).
    done.
Qed.

(** For a whole number of milliseconds below 2 ^ 43 seconds, what is printed
    is the decimal expansion of [ms] / 1000. *)
Lemma thousandths_exact (ms : Z) :
  Z.abs ms < 1000 * 2 ^ 43 →
  thousandths_to_string ms =
    (if ms <? 0 then "-" else EmptyString) +:+
    exact_thousandths (Z.to_N (Z.abs ms)).
Proof.
  intros Hms. unfold thousandths_to_string, whole.
  destruct (Z.eqb_spec ms 0) as [-> | Hnz]; [reflexivity |].
  assert (0 < Z.abs ms < 1000 * 2 ^ 43) as Ha by lia.
  unfold quotient_by_1000, scale2. cbn [Z.leb Z.compare].
  change (2 ^ 0) with 1. rewrite Z.mul_1_r.
  destruct (thousandths_finite _ Ha) as (mx & ex & Hx). rewrite Hx.
  destruct (decimal_of_thousandths _ mx ex Ha Hx) as (s & t & -> & Ht & Hs & Hc).
  by rewrite (format_thousandths (Z.abs ms)).
Qed.


Lemma read_thousandths (ms : Z) :
  Z.abs ms < 1000 * 2 ^ 43 →
  ∃ m k, read_decimal (thousandths_to_string ms) = Some (m, k) ∧
         m * 1000 = ms * 10 ^ Z.of_nat k.
Proof.
  intros Hms. rewrite thousandths_exact by done. apply read_exact_thousandths.
Qed.

(** A final character can be taken off both sides. *)
Lemma append_char_cancel (a b : string) (c : ascii) :
  a +:+ String c EmptyString = b +:+ String c EmptyString → a = b.
Proof.
  revert b. induction a as [| x a IH]; intros [| y b];
    rewrite ?append_String, ?append_Empty.
  - done.
  - intros [= _ E]. by destruct b.
  - intros [= _ E]. by destruct a.
  - intros [= -> E]. f_equal. by apply IH.
Qed.

(** C8 as stated fails.  The quotient is a binary64 value and what is
    printed is the shortest decimal that rounds to it.  One millisecond more
    than 2 ^ 43 seconds is printed as two thousandths more; for 2 ^ 53 - 1
    milliseconds the last thousandth is dropped; and a tenth of a
    millisecond, which as a binary64 value is a little more than a tenth, is
    printed as a ten-thousandth of a second exactly. *)
Lemma sleep_command_rounds :
  children (setShellDelay tick 8796093022208001 false (initial true)).2 =
    [Child "sleep 8796093022208.002s" 0 tick 8796093022208001 false Sleeping] ∧
  read_decimal "8796093022208.002" = Some (8796093022208002, 3%nat) ∧
  8796093022208002 * 1000 ≠ 8796093022208001 * 10 ^ 3 ∧
  thousandths_to_string 9007199254740991 = "9007199254740.99" ∧
  (thousandths_to_string (Finite 3602879701896397 (-55)) = "0.0001" ∧
   1 * (1000 * 2 ^ 55) ≠ 3602879701896397 * 10 ^ 4) ∧
  ¬ seconds_exact.
Proof.
  assert (children (setShellDelay tick 8796093022208001 false (initial true)).2 =
          [Child "sleep 8796093022208.002s" 0 tick 8796093022208001 false
             Sleeping]) as Hc by (vm_compute; reflexivity).
  assert (read_decimal "8796093022208.002" = Some (8796093022208002, 3%nat))
    as Hr by (vm_compute; reflexivity).
  split; [exact Hc |]. split; [exact Hr |]. split; [lia |].
  split; [vm_compute; reflexivity |].
  split; [split; [vm_compute; reflexivity | lia] |].
  intros Hclaim.
  destruct (Hclaim 8796093022208001 tick false (initial true) eq_refl)
    as (seconds & m & k & Hcmd & Hread & Hval).
  rewrite Hc in Hcmd. cbn [length initial children lookup list_lookup fmap
    option_fmap option_map c_command] in Hcmd.
  injection Hcmd as Hcmd.
  change ("8796093022208.002" +:+ "s" = seconds +:+ "s") in Hcmd.
  apply (append_char_cancel "8796093022208.002" seconds "s") in Hcmd.
  subst seconds. rewrite Hr in Hread. injection Hread as <- <-. lia.
Qed.

(** C8, amended.  With the sleep utility available, the process a scheduling
    call starts for a whole number [ms] of milliseconds that is less than
    2 ^ 43 seconds, either way from zero, runs the command line
    [sleep <seconds>s] in which <seconds> is a decimal numeral whose value is
    exactly [ms] / 1000: read back as a numerator [m] over 10 ^ [k], it
    satisfies m / 10 ^ k = ms / 1000, so a duration that is not a whole
    number of seconds keeps its fraction. *)
Theorem sleep_command_seconds cb (ms : Z) recur σ :
  isSleepAvailable σ = true →
  Z.abs ms < 1000 * 2 ^ 43 →
  ∃ seconds m k,
    children (setShellDelay cb ms recur σ).2 =
      children σ ++
        [Child ("sleep " +:+ seconds +:+ "s") (nextshellDelayId σ) cb ms recur
           Sleeping] ∧
    trace (setShellDelay cb ms recur σ).2 =
      trace σ ++
        [EvExec (length (children σ)) ("sleep " +:+ seconds +:+ "s");
         EvStore (nextshellDelayId σ) (VChildProcess (length (children σ)))] ∧
    read_decimal seconds = Some (m, k) ∧
    m * 1000 = ms * 10 ^ Z.of_nat k.
Proof.
  intros Ha Hms. destruct (read_thousandths ms Hms) as (m & k & Hr & Hm).
  exists (thousandths_to_string ms), m, k.
  rewrite setShellDelay_available by done. simpl.
  by rewrite <- app_assoc.
Qed.

(** ** The theorems at concrete worlds *)

Lemma clearShellDelay_walk_witness :
  (follow 0 (shellDelays (world_after 1 one_tick (initial true)))
     (get (shellDelays (world_after 1 one_tick (initial true))) (VNum 0)) = None ∧
   clearShellInterval 2 (VNum 0) (world_after 1 one_tick (initial true)) =
     Returned VUndefined (kill 1 (world_after 1 one_tick (initial true))).2) ∧
  clearShellDelay (1 + 3) (VNum 0) interval_stopped =
    OutOfFuel (after_failures 3 1 interval_stopped).
Proof.
  split.
  - destruct (clearShellDelay_walk (VNum 0) [1] 1
                (world_after 1 one_tick (initial true)))
      as (Hw & _ & Hnone & _ & Hk & _); [reflexivity | by vm_compute |].
    split; [apply Hnone; simpl; lia |].
    destruct (Hw 2%nat) as [_ ->].
    apply Hk; [reflexivity | simpl; lia].
  - destruct (clearShellDelay_walk (VNum 0) [1] 1 interval_stopped)
      as (_ & _ & _ & _ & _ & Hk); [reflexivity | by vm_compute |].
    destruct (Hk eq_refl 3%nat) as (_ & H & _). exact H.
Defined.

Lemma clear_unknown_handle_throws_witness :
  clearShellTimeout 1 (VNum 7) (initial true) = Threw TypeError (initial true) ∧
  clearShellInterval 1 (VNum 7) (initial true) = Threw TypeError (initial true).
Proof.
  apply (clear_unknown_handle_throws 0 7 (initial true)); reflexivity.
Defined.

Lemma fallback_delegates_witness :
  setShellTimeout tick 1500 (initial false) = setTimeout tick 1500 (initial false) ∧
  clearShellTimeout 1 (VTimeout 0) (initial false) =
    Returned VUndefined (clearTimeout (VTimeout 0) (initial false)).
Proof.
  destruct (fallback_delegates 1 tick 1500 (VTimeout 0) (initial false))
    as (H1 & _ & _ & H2 & _); [reflexivity |].
  split; [exact H1 | exact H2].
Defined.


Lemma recurrence_before_callback_witness :
  ∃ σ2,
    perform 1 (ADeliver 0) interval_expired = invoke 1 tick σ2 ∧
    trace σ2 =
      trace interval_expired ++
        [EvExec 1 "sleep 1s"; EvStore 1 (VChildProcess 1); EvStore 0 (VNum 1)] ∧
    children σ2 =
      [Child "sleep 1s" 0 tick 1000 true Reaped;
       Child "sleep 1s" 1 tick 1000 true Sleeping].
Proof.
  destruct (recurrence_before_callback false 1 0
              (Child "sleep 1s" 0 tick 1000 true (Exited false))
              interval_expired) as [H _].
  - apply world_after_reachable. repeat constructor.
  - reflexivity.
  - left. reflexivity.
  - reflexivity.
  - destruct H as (σ2 & H1 & _ & H2 & H3 & _); [reflexivity |].
    exists σ2. split; [exact H1 |]. split; [exact H2 | exact H3].
Defined.



Lemma sleep_command_seconds_witness :
  ∃ seconds m k,
    children (setShellDelay tick 1500 false (initial true)).2 =
      [Child ("sleep " +:+ seconds +:+ "s") 0 tick 1500 false Sleeping] ∧
    trace (setShellDelay tick 1500 false (initial true)).2 =
      [EvExec 0 ("sleep " +:+ seconds +:+ "s"); EvStore 0 (VChildProcess 0)] ∧
    read_decimal seconds = Some (m, k) ∧
    m * 1000 = 1500 * 10 ^ Z.of_nat k.
Proof.
  apply (sleep_command_seconds tick 1500 false (initial true));
    [reflexivity | vm_compute; reflexivity].
Defined.

(** ** Scenarios *)

(** The command line for a second and a half. *)
Example sleep_one_and_a_half :
  children timeout_set = [Child "sleep 1.5s" 0 tick 1500 false Sleeping].
Proof. reflexivity. Qed.

(** An interval cancelled before its first tick: the callback never runs. *)
Example cancelled_interval_never_ticks :
  trace (world_after 2 [ADeliver 0] interval_cancelled) =
    [EvExec 0 "sleep 1s"; EvStore 0 (VChildProcess 0); EvKill 0 true].
Proof. reflexivity. Qed.

(** A timeout whose callback has run cannot be cancelled: the termination
    request fails on every pass. *)
Example clear_after_firing_spins fuel :
  clearShellTimeout fuel (VNum 0) timeout_fired =
    OutOfFuel (after_failures fuel 0 timeout_fired).
Proof.
  apply (clearShellDelay_spins (VNum 0) 0 0 fuel); [reflexivity | lia | reflexivity].
Qed.

(** A timeout cancelled after its process has ended and before Node has
    noticed: the cancellation returns, and the callback runs all the same. *)
Example cancel_too_late :
  trace (world_after 1 [ACall (ClearShellTimeout (VNum 0)); ADeliver 0]
           timeout_expired) =
    [EvExec 0 "sleep 1.5s"; EvStore 0 (VChildProcess 0); EvKill 0 true;
     EvInvoke "tick"].
Proof. reflexivity. Qed.

(** An interval whose callback cancels it: the cancellation finds the process
    that the recurrence has just started and, that process still sleeping,
    terminates it. *)
Example cancel_inside_callback :
  let stop := Callback "stop" [ClearShellInterval (VNum 0)] in
  let σ := world_after 2
             [ACall (SetShellInterval stop 1000); AExit 0 false; ADeliver 0]
             (initial true) in
  c_status <$> children σ = [Reaped; Exited true] ∧
  trace σ =
    [EvExec 0 "sleep 1s"; EvStore 0 (VChildProcess 0);
     EvExec 1 "sleep 1s"; EvStore 1 (VChildProcess 1); EvStore 0 (VNum 1);
     EvInvoke "stop"; EvKill 1 true].
Proof. split; reflexivity. Qed.

(** Every tick of an interval adds an indirection: after two ticks the walk
    from the handle goes through slots 1 and 2 to the third process. *)
Example chain_after_two_ticks :
  let σ := world_after 1
             [ACall (SetShellInterval tick 1000); AExit 0 false; ADeliver 0;
              AExit 1 false; ADeliver 1]
             (initial true) in
  shellDelays σ !! 0 = Some (VNum 1) ∧
  shellDelays σ !! 1 = Some (VNum 2) ∧
  shellDelays σ !! 2 = Some (VChildProcess 2) ∧
  follow 1 (shellDelays σ) (get (shellDelays σ) (VNum 0)) = None ∧
  follow 2 (shellDelays σ) (get (shellDelays σ) (VNum 0)) = Some (VChildProcess 2).
Proof. repeat split; reflexivity. Qed.

(** * Beyond the statements of the specification *)

(** ** Nothing is ever taken back *)

Lemma same_closure_refl c : same_closure c c.
Proof. by repeat split. Qed.

Lemma same_closure_trans c1 c2 c3 :
  same_closure c1 c2 → same_closure c2 c3 → same_closure c1 c3.
Proof.
  intros (A1 & A2 & A3 & A4 & A5) (B1 & B2 & B3 & B4 & B5).
  repeat split; congruence.
Qed.

Lemma status_le_refl s : status_le s s.
Proof. by destruct s. Qed.

Lemma status_le_trans s1 s2 s3 :
  status_le s1 s2 → status_le s2 s3 → status_le s1 s3.
Proof. destruct s1, s2, s3; simpl; try done; congruence. Qed.

Lemma grows_refl σ : grows σ σ.
Proof.
  split; [lia | done |]. intros pid c Hc. exists c.
  split; [done |]. split; [apply same_closure_refl | apply status_le_refl].
Qed.

Lemma grows_trans σ1 σ2 σ3 : grows σ1 σ2 → grows σ2 σ3 → grows σ1 σ3.
Proof.
  intros [A1 A2 A3] [B1 B2 B3]. split; [lia | by auto |].
  intros pid c1 H1. destruct (A3 _ _ H1) as (c2 & H2 & S12 & L12).
  destruct (B3 _ _ H2) as (c3 & H3 & S23 & L23). exists c3.
  split; [done |].
  split; [by eapply same_closure_trans | by eapply status_le_trans].
Qed.

(** Worlds with the same dictionary, counter and processes. *)
Lemma grows_same σ σ' :
  shellDelays σ' = shellDelays σ →
  nextshellDelayId σ' = nextshellDelayId σ →
  children σ' = children σ →
  grows σ σ'.
Proof.
  intros E1 E2 E3. split; rewrite ?E1, ?E2, ?E3; [lia | done |].
  intros pid c Hc. exists c.
  split; [done |]. split; [apply same_closure_refl | apply status_le_refl].
Qed.

Lemma grows_log e σ : grows σ (log e σ).
Proof. by apply grows_same. Qed.

Lemma grows_set_status pid c st σ :
  children σ !! pid = Some c →
  status_le (c_status c) st →
  grows σ (set_children (<[pid := with_status st c]>) σ).
Proof.
  intros Hc Hle. split; simpl; [lia | done |].
  intros p c0 Hp. destruct (decide (p = pid)) as [-> | Hne].
  - exists (with_status st c). rewrite list_lookup_insert_eq
      by (by eapply lookup_lt_Some).
    assert (c0 = c) as -> by congruence.
    split; [done |]. split; [by repeat split | done].
  - exists c0. rewrite list_lookup_insert_ne by done.
    split; [done |]. split; [apply same_closure_refl | apply status_le_refl].
Qed.

Lemma grows_kill pid σ : grows σ (kill pid σ).2.
Proof.
  unfold kill. destruct (children σ !! pid) as [c |] eqn:Hc; simpl.
  - destruct (c_status c) eqn:Hs; simpl; try apply grows_log.
    eapply grows_trans; [| apply grows_log].
    apply grows_set_status; [done |]. by rewrite Hs.
  - apply grows_log.
Qed.

Lemma grows_clearTimeout h σ : grows σ (clearTimeout h σ).
Proof. apply grows_same; by destruct h. Qed.

Lemma grows_store d v σ : grows σ (store d v σ).
Proof.
  split; simpl; [lia | |].
  - intros k Hk. rewrite lookup_insert. by case_decide.
  - intros pid c Hc. exists c.
    split; [done |]. split; [apply same_closure_refl | apply status_le_refl].
Qed.

Lemma grows_setShellDelay cb ms recur σ :
  grows σ (setShellDelay cb ms recur σ).2.
Proof.
  destruct (isSleepAvailable σ) eqn:Ha.
  - rewrite setShellDelay_available by done. split; simpl; [lia | |].
    + intros k Hk. rewrite lookup_insert. by case_decide.
    + intros pid c Hc. exists c. rewrite lookup_app_l
        by (by eapply lookup_lt_Some).
      split; [done |]. split; [apply same_closure_refl | apply status_le_refl].
  - rewrite setShellDelay_unavailable by done. by apply grows_same.
Qed.

Lemma grows_clearShellDelay fuel handle σ σ' :
  final (clearShellDelay fuel handle σ) = Some σ' → grows σ σ'.
Proof.
  revert σ. induction fuel as [| fuel IH]; intros σ; simpl; [done |].
  destruct (follow _ _ _) as [cur |]; [| done].
  destruct cur as [| n | pid | tid]; simpl;
    try (intros [= <-]; apply grows_refl).
  pose proof (grows_kill pid σ) as Hg.
  destruct (kill pid σ) as [[] σ1]; simpl in *.
  - by intros [= <-].
  - intros H. eapply grows_trans; [exact Hg | by apply IH].
Qed.

Lemma grows_run_call fuel c σ σ' :
  final (run_call fuel c σ) = Some σ' → grows σ σ'.
Proof.
  destruct c as [cb ms | cb ms | h | h]; simpl.
  - pose proof (grows_setShellDelay cb ms false σ) as H.
    unfold setShellTimeout. destruct (setShellDelay cb ms false σ).
    simpl. by intros [= <-].
  - pose proof (grows_setShellDelay cb ms true σ) as H.
    unfold setShellInterval. destruct (setShellDelay cb ms true σ).
    simpl. by intros [= <-].
  - unfold clearShellTimeout. destruct (isSleepAvailable σ).
    + apply grows_clearShellDelay.
    + simpl. intros [= <-]. apply grows_clearTimeout.
  - unfold clearShellInterval. destruct (isSleepAvailable σ).
    + apply grows_clearShellDelay.
    + simpl. intros [= <-]. apply grows_clearTimeout.
Qed.

Lemma grows_run_calls fuel cs σ σ' :
  final (run_calls fuel cs σ) = Some σ' → grows σ σ'.
Proof.
  revert σ. induction cs as [| c cs IH]; intros σ; simpl.
  - intros [= <-]. apply grows_refl.
  - destruct (run_call fuel c σ) as [v σ1 | e σ1 | σ1] eqn:E; simpl.
    + intros H. eapply grows_trans; [| by apply IH].
      apply (grows_run_call fuel c). by rewrite E.
    + intros [= <-]. apply (grows_run_call fuel c). by rewrite E.
    + done.
Qed.

Lemma grows_invoke fuel cb σ σ' :
  final (invoke fuel cb σ) = Some σ' → grows σ σ'.
Proof.
  unfold invoke. intros H. eapply grows_trans; [apply grows_log |].
  by eapply grows_run_calls.
Qed.

Lemma grows_on_exit fuel c error σ σ' :
  final (on_exit fuel c error σ) = Some σ' → grows σ σ'.
Proof.
  unfold on_exit. destruct error; simpl.
  { intros [= <-]. apply grows_refl. }
  intros H. eapply grows_trans; [| by eapply grows_invoke].
  destruct (c_recur c); [| apply grows_refl].
  pose proof (grows_setShellDelay (c_callback c) (c_ms c) true σ) as Hg.
  destruct (setShellDelay (c_callback c) (c_ms c) true σ) as [h σ1].
  eapply grows_trans; [exact Hg | apply grows_store].
Qed.

Lemma grows_perform fuel a σ σ' :
  final (perform fuel a σ) = Some σ' → grows σ σ'.
Proof.
  destruct a as [c | pid error | pid | pid | tid | installed |]; simpl.
  - apply grows_run_call.
  - destruct (children σ !! pid) as [c |] eqn:Hc;
      [| intros [= <-]; apply grows_refl].
    destruct (c_status c) eqn:Hs; simpl;
      try (intros [= <-]; apply grows_refl).
    intros [= <-]. apply grows_set_status; [done |]. by rewrite Hs.
  - destruct (children σ !! pid) as [c |] eqn:Hc;
      [| intros [= <-]; apply grows_refl].
    destruct (c_status c) eqn:Hs; simpl;
      try (intros [= <-]; apply grows_refl).
    intros [= <-]. apply grows_set_status; [done |]. by rewrite Hs.
  - destruct (children σ !! pid) as [c |] eqn:Hc;
      [| intros [= <-]; apply grows_refl].
    destruct (c_status c) as [| error | error |] eqn:Hs; simpl;
      try (intros [= <-]; apply grows_refl).
    all: intros H; (eapply grows_trans; [| by eapply grows_on_exit]);
      apply grows_set_status; [done |]; by rewrite Hs.
  - destruct (timers σ !! tid) as [t |]; [| intros [= <-]; apply grows_refl].
    intros H. eapply grows_trans; [| by eapply grows_invoke].
    destruct (t_repeat t); [apply grows_refl | by apply grows_same].
  - intros [= <-]. by apply grows_same.
  - intros [= <-]. by apply grows_same.
Qed.

Lemma evolves_grows σ σ' : evolves σ σ' → grows σ σ'.
Proof.
  induction 1 as [σ | σ σ1 σ2 fuel a _ IH Hstep]; [apply grows_refl |].
  eapply grows_trans; [exact IH | by eapply grows_perform].
Qed.

(** X1.  Whatever happens, in any order and however it ends, the counter
    never goes back, a slot of the dictionary is never deleted, and no process
    record disappears: the dictionary only grows. *)
Theorem registry_never_shrinks σ σ' :
  evolves σ σ' →
  nextshellDelayId σ ≤ nextshellDelayId σ' ∧
  (∀ k, is_Some (shellDelays σ !! k) → is_Some (shellDelays σ' !! k)) ∧
  (length (children σ) ≤ length (children σ'))%nat.
Proof.
  intros He. destruct (evolves_grows _ _ He) as [G1 G2 G3].
  split; [done |]. split; [done |].
  destruct (children σ) as [| c0 cs] eqn:E using rev_ind; [simpl; lia |].
  clear IHcs.
  destruct (G3 (length cs) c0) as (c' & Hc' & _).
  { by rewrite lookup_app_r, Nat.sub_diag by lia. }
  apply lookup_lt_Some in Hc'. rewrite length_app. simpl. lia.
Qed.

(** X2.  Handles are never reused: a handle dispensed by a scheduling call
    that used the sleep utility is a strictly larger number than every handle
    dispensed by such a call before it, whatever happened in between. *)
Theorem handles_never_reused cb ms recur cb' ms' recur' σ σ' :
  isSleepAvailable σ = true →
  evolves (setShellDelay cb ms recur σ).2 σ' →
  isSleepAvailable σ' = true →
  ∃ k k',
    (setShellDelay cb ms recur σ).1 = VNum k ∧
    (setShellDelay cb' ms' recur' σ').1 = VNum k' ∧
    k < k'.
Proof.
  intros Ha He Ha'. apply evolves_grows in He as [G1 _ _].
  rewrite setShellDelay_available in G1 |- * by done.
  rewrite (setShellDelay_available cb' ms' recur' σ') by done.
  simpl in *. eexists _, _. split; [done |]. split; [done |]. lia.
Qed.

(** ** Every process that can still fire is within reach of its slot *)

Lemma reachable_true flips σ : reachable flips σ → reachable true σ.
Proof.
  induction 1 as [installed | σ fuel a σ' _ IH Hal Hstep].
  - apply reachable_initial.
  - eapply reachable_step; [exact IH | | exact Hstep]. by destruct a.
Qed.

Lemma owns_initial installed : owns (initial installed).
Proof. intros pid c Hc. simpl in Hc. by rewrite lookup_nil in Hc. Qed.

(** A step that leaves the dictionary alone and starts no process. *)
Lemma owns_quiet σ σ' : owns σ → quiet σ σ' → grows σ σ' → owns σ'.
Proof.
  intros Ho [Q1 Q2 Q3 Q4 Q5] [_ _ G3] pid c' Hc' Hcond.
  destruct (lookup_lt_is_Some_2 (children σ) pid) as [c Hc].
  { rewrite <- Q4. by eapply lookup_lt_Some. }
  destruct (G3 _ _ Hc) as (c'' & Hc'' & (_ & Ed & _ & _ & Er) & Hle).
  assert (c'' = c') as -> by congruence.
  rewrite Q1, Ed. apply (Ho pid c Hc).
  destruct Hcond as [Hn | Hr]; [left | right; congruence].
  intros Hs. rewrite Hs in Hle. by destruct (c_status c').
Qed.

Lemma owns_same σ σ' :
  shellDelays σ' = shellDelays σ →
  children σ' = children σ →
  owns σ → owns σ'.
Proof. intros E1 E2 Ho pid c. rewrite E1, E2. apply Ho. Qed.

Lemma owns_setShellDelay cb ms recur σ :
  inv true σ → owns σ → owns (setShellDelay cb ms recur σ).2.
Proof.
  intros Hinv Ho. destruct (isSleepAvailable σ) eqn:Ha.
  2: { rewrite setShellDelay_unavailable by done. by apply (owns_same σ). }
  rewrite setShellDelay_available by done.
  intros pid c. simpl. rewrite lookup_app_Some. intros [Hc | [Hlen Hc]] Hcond.
  - rewrite lookup_insert_ne; [by apply Ho |].
    pose proof (inv_closure _ _ Hinv _ _ Hc). lia.
  - apply list_lookup_singleton_Some in Hc as [Hpid <-]. simpl.
    rewrite lookup_insert_eq. f_equal. f_equal. lia.
Qed.

Lemma released_setShellDelay cb ms recur σ d :
  released σ d → d < nextshellDelayId σ →
  released (setShellDelay cb ms recur σ).2 d.
Proof.
  intros Hrel Hd. destruct (isSleepAvailable σ) eqn:Ha.
  2: { rewrite setShellDelay_unavailable by done. exact Hrel. }
  rewrite setShellDelay_available by done.
  intros pid c. simpl. rewrite lookup_app_Some. intros [Hc | [_ Hc]] Hcond.
  - by eapply Hrel.
  - apply list_lookup_singleton_Some in Hc as [_ <-]. simpl. lia.
Qed.

Lemma owns_store d v σ : owns σ → released σ d → owns (store d v σ).
Proof.
  intros Ho Hrel pid c Hc Hcond. simpl.
  rewrite lookup_insert_ne; [by apply Ho |].
  intros E. by apply (Hrel pid c Hc Hcond).
Qed.

Lemma owns_run_call fuel c σ σ' :
  inv true σ → owns σ → final (run_call fuel c σ) = Some σ' → owns σ'.
Proof.
  intros Hinv Ho H.
  destruct c as [cb ms | cb ms | h | h]; simpl in H.
  - pose proof (owns_setShellDelay cb ms false σ Hinv Ho) as Hs.
    unfold setShellTimeout in H. destruct (setShellDelay cb ms false σ).
    simpl in *. by injection H as <-.
  - pose proof (owns_setShellDelay cb ms true σ Hinv Ho) as Hs.
    unfold setShellInterval in H. destruct (setShellDelay cb ms true σ).
    simpl in *. by injection H as <-.
  - apply (owns_quiet σ); [done | |].
    + by eapply clearShellTimeout_final_quiet.
    + by apply (grows_run_call fuel (ClearShellTimeout h)).
  - apply (owns_quiet σ); [done | |].
    + by eapply clearShellInterval_final_quiet.
    + by apply (grows_run_call fuel (ClearShellInterval h)).
Qed.

Lemma owns_run_calls fuel cs σ σ' :
  inv true σ → owns σ → final (run_calls fuel cs σ) = Some σ' → owns σ'.
Proof.
  revert σ. induction cs as [| c cs IH]; intros σ Hinv Ho; simpl.
  - by intros [= <-].
  - destruct (run_call fuel c σ) as [v σ1 | e σ1 | σ1] eqn:E; simpl.
    + apply IH.
      * eapply inv_run_call; [exact Hinv |]. by rewrite E.
      * eapply owns_run_call; [exact Hinv | exact Ho |]. by rewrite E.
    + intros [= <-]. eapply owns_run_call; [exact Hinv | exact Ho |].
      by rewrite E.
    + done.
Qed.

Lemma owns_invoke fuel cb σ σ' :
  inv true σ → owns σ → final (invoke fuel cb σ) = Some σ' → owns σ'.
Proof.
  intros Hinv Ho. unfold invoke. apply owns_run_calls.
  - eapply inv_quiet; [exact Hinv | apply quiet_log].
  - by apply (owns_same σ).
Qed.

(** When the completion handler of a process is about to run, the process
    gives up its slot if its delay recurs, and keeps it otherwise. *)
Lemma owns_reap pid c σ :
  owns σ → children σ !! pid = Some c → c_status c ≠ Reaped →
  owns (set_children (<[pid := with_status Reaped c]>) σ) ∧
  (c_recur c = true →
   released (set_children (<[pid := with_status Reaped c]>) σ) (c_delayId c)).
Proof.
  intros Ho Hc Hs.
  assert (∀ p c0,
    (<[pid := with_status Reaped c]> (children σ)) !! p = Some c0 →
    (p = pid ∧ c0 = with_status Reaped c) ∨ (p ≠ pid ∧ children σ !! p = Some c0))
    as Hcases.
  { intros p c0 Hp. destruct (decide (p = pid)) as [-> | Hne].
    - rewrite list_lookup_insert_eq in Hp by (by eapply lookup_lt_Some).
      left. split; [done | congruence].
    - rewrite list_lookup_insert_ne in Hp by done. by right. }
  split.
  - intros p c0 Hp Hcond. simpl in *.
    destruct (Hcases _ _ Hp) as [[-> ->] | [_ Hp0]]; [| by apply Ho].
    simpl in *. apply (Ho pid c Hc). by left.
  - intros Hr p c0 Hp Hcond E. simpl in *.
    destruct (Hcases _ _ Hp) as [[-> ->] | [Hne Hp0]]; simpl in *.
    + destruct Hcond as [? | ?]; [done | congruence].
    + pose proof (Ho p c0 Hp0 Hcond) as H1.
      pose proof (Ho pid c Hc (or_introl Hs)) as H2.
      rewrite E in H1. congruence.
Qed.

Lemma owns_on_exit fuel c error σ σ' :
  inv true σ → owns σ →
  0 ≤ c_delayId c < nextshellDelayId σ →
  (c_recur c = true → released σ (c_delayId c)) →
  final (on_exit fuel c error σ) = Some σ' → owns σ'.
Proof.
  intros Hinv Ho Hd Hrel. unfold on_exit. destruct error; simpl.
  { by intros [= <-]. }
  destruct (c_recur c) eqn:Hr; [| by apply owns_invoke].
  pose proof (inv_reschedule true (c_callback c) (c_ms c) σ (c_delayId c)
                Hinv Hd ltac:(done)) as Hinv'.
  pose proof (owns_setShellDelay (c_callback c) (c_ms c) true σ Hinv Ho) as Ho'.
  pose proof (released_setShellDelay (c_callback c) (c_ms c) true σ
                (c_delayId c) (Hrel eq_refl) ltac:(lia)) as Hrel'.
  destruct (setShellDelay (c_callback c) (c_ms c) true σ) as [h σ1].
  simpl in *. apply owns_invoke; [done |]. by apply owns_store.
Qed.

Lemma owns_perform fuel a σ σ' :
  inv true σ → owns σ → final (perform fuel a σ) = Some σ' → owns σ'.
Proof.
  intros Hinv Ho. destruct a as [c | pid error | pid | pid | tid | installed |]; simpl.
  - by apply owns_run_call.
  - destruct (children σ !! pid) as [c |] eqn:Hc; [| by intros [= <-]].
    destruct (c_status c) eqn:Hs; simpl; try by intros [= <-].
    intros [= <-]. apply (owns_quiet σ); [done | |].
    + by apply quiet_set_status.
    + apply grows_set_status; [done |]. by rewrite Hs.
  - destruct (children σ !! pid) as [c |] eqn:Hc; [| by intros [= <-]].
    destruct (c_status c) eqn:Hs; simpl; try by intros [= <-].
    intros [= <-]. apply (owns_quiet σ); [done | |].
    + by apply quiet_set_status.
    + apply grows_set_status; [done |]. by rewrite Hs.
  - destruct (children σ !! pid) as [c |] eqn:Hc; [| by intros [= <-]].
    destruct (c_status c) as [| error | error |] eqn:Hs; simpl;
      try by intros [= <-].
    all: destruct (owns_reap pid c σ Ho Hc) as [Ho0 Hrel0]; [by rewrite Hs |];
      apply owns_on_exit; try done;
      [ eapply inv_quiet; [exact Hinv | by apply quiet_set_status]
      | simpl; by eapply inv_closure ].
  - destruct (timers σ !! tid) as [t |]; [| by intros [= <-]].
    apply owns_invoke.
    + destruct (t_repeat t); [done | by apply inv_delete_timer].
    + destruct (t_repeat t); [done | by apply (owns_same σ)].
  - intros [= <-]. by apply (owns_same σ).
  - intros [= <-]. by apply (owns_same σ).
Qed.

Lemma reachable_owns flips σ : reachable flips σ → owns σ.
Proof.
  induction 1 as [installed | σ fuel a σ' Hr IH Hal Hstep].
  - apply owns_initial.
  - eapply owns_perform; [| exact IH | exact Hstep].
    apply reachable_inv. by eapply reachable_true.
Qed.

(** The process a scheduling call starts, and where its wrapper is. *)
Lemma setShellDelay_spawns cb ms recur σ :
  isSleepAvailable σ = true →
  children (setShellDelay cb ms recur σ).2 !! length (children σ) =
    Some (Child ("sleep " +:+ thousandths_to_string ms +:+ "s")
            (nextshellDelayId σ) cb ms recur Sleeping) ∧
  shellDelays (setShellDelay cb ms recur σ).2 !! nextshellDelayId σ =
    Some (VChildProcess (length (children σ))) ∧
  isSleepAvailable (setShellDelay cb ms recur σ).2 = true.
Proof.
  intros Ha. rewrite setShellDelay_available by done. simpl.
  split; [by apply list_lookup_middle |]. split; [apply lookup_insert_eq | done].
Qed.

(** X4.  No process that can still fire is ever out of reach: in every
    reachable world the slot a process was started for holds the wrapper of
    that process for as long as its completion handler has not run, whether
    the process is sleeping or has ended.  So, the sleep utility being
    available, cancelling that slot while the process is sleeping terminates
    it, in one pass, with either cancel function. *)
Theorem sleeping_process_is_cancellable flips fuel pid c σ :
  reachable flips σ →
  children σ !! pid = Some c →
  c_status c ≠ Reaped →
  shellDelays σ !! c_delayId c = Some (VChildProcess pid) ∧
  (isSleepAvailable σ = true →
   c_status c = Sleeping →
   clearShellTimeout (S fuel) (VNum (c_delayId c)) σ =
     Returned VUndefined
       (log (EvKill pid true)
          (set_children (<[pid := with_status (Exited true) c]>) σ)) ∧
   clearShellInterval (S fuel) (VNum (c_delayId c)) σ =
     Returned VUndefined
       (log (EvKill pid true)
          (set_children (<[pid := with_status (Exited true) c]>) σ))).
Proof.
  intros Hr Hc Hs.
  assert (shellDelays σ !! c_delayId c = Some (VChildProcess pid)) as Hslot.
  { apply (reachable_owns _ _ Hr pid c Hc). by left. }
  split; [done |]. intros Ha Hsl.
  unfold clearShellTimeout, clearShellInterval. rewrite Ha. simpl.
  rewrite Hslot. simpl.
  assert (follow fuel (shellDelays σ) (VChildProcess pid) =
          Some (VChildProcess pid)) as -> by (by destruct fuel).
  simpl. by rewrite (kill_sleeping pid c).
Qed.

(** X5.  A timeout cannot be cancelled once Node has processed the end of
    its process, and in particular once its callback has run: its slot keeps
    the wrapper of the process, which has let go of its handle; the
    termination request is made and fails on every pass, and the cancel
    call, with the sleep utility available, never returns. *)
Theorem ended_timeout_cancel_never_returns flips fuel pid c σ :
  reachable flips σ →
  isSleepAvailable σ = true →
  children σ !! pid = Some c →
  c_recur c = false →
  has_handle (c_status c) = false →
  shellDelays σ !! c_delayId c = Some (VChildProcess pid) ∧
  clearShellTimeout fuel (VNum (c_delayId c)) σ =
    OutOfFuel (after_failures fuel pid σ) ∧
  clearShellInterval fuel (VNum (c_delayId c)) σ =
    OutOfFuel (after_failures fuel pid σ) ∧
  trace (after_failures fuel pid σ) =
    trace σ ++ replicate fuel (EvKill pid false).
Proof.
  intros Hr Ha Hc Hrec Hs.
  assert (shellDelays σ !! c_delayId c = Some (VChildProcess pid)) as Hslot.
  { apply (reachable_owns _ _ Hr pid c Hc). by right. }
  split; [done |].
  unfold clearShellTimeout, clearShellInterval. rewrite Ha.
  assert (clearShellDelay (0 + fuel) (VNum (c_delayId c)) σ =
          OutOfFuel (after_failures fuel pid σ)) as E.
  { apply clearShellDelay_spins.
    - simpl. by rewrite Hslot.
    - intros m Hm. lia.
    - by rewrite kill_reports, Hc. }
  simpl in E. rewrite E. split; [done |]. split; [done |].
  apply after_failures_trace.
Qed.

(** X6.  What a cancellation achieves depends on whether the process still
    sleeps when it is made.  With the sleep utility available, in any world:
    the handle a scheduling call returns, given to either cancel function
    while the process is sleeping, gets the process terminated in one pass;
    the process cannot end naturally after that, and when its completion is
    delivered nothing happens.  Given to either cancel function after the
    process has ended naturally, and before Node has noticed, it makes the
    cancel call return after one pass as well, the request reported
    successful; but the completion is delivered without an error: the
    callback is invoked and, for an interval, the next process has been
    started.  The cancellation is lost. *)
Theorem cancel_before_expiry_silences fuel cb ms recur σ :
  isSleepAvailable σ = true →
  let r := setShellDelay cb ms recur σ in
  let pid := length (children σ) in
  let started :=
    [EvExec pid ("sleep " +:+ thousandths_to_string ms +:+ "s");
     EvStore (nextshellDelayId σ) (VChildProcess pid)] in
  (∃ σ2 σ3,
     clearShellTimeout 1 r.1 r.2 = Returned VUndefined σ2 ∧
     clearShellInterval 1 r.1 r.2 = Returned VUndefined σ2 ∧
     (∀ error, perform fuel (AExit pid error) σ2 = Returned VUndefined σ2) ∧
     perform fuel (ADeliver pid) σ2 = Returned VUndefined σ3 ∧
     trace σ3 = trace σ ++ started ++ [EvKill pid true] ∧
     length (children σ3) = S (length (children σ)) ∧
     timers σ3 = timers σ) ∧
  (∃ σ1 σ2 σ3,
     perform fuel (AExit pid false) r.2 = Returned VUndefined σ1 ∧
     clearShellTimeout 1 r.1 σ1 = Returned VUndefined σ2 ∧
     clearShellInterval 1 r.1 σ1 = Returned VUndefined σ2 ∧
     trace σ2 = trace σ ++ started ++ [EvKill pid true] ∧
     perform fuel (ADeliver pid) σ2 = invoke fuel cb σ3 ∧
     length (children σ3) =
       (if recur then S (S (length (children σ)))
        else S (length (children σ)))).
Proof.
  intros Ha r pid started.
  destruct (setShellDelay_spawns cb ms recur σ Ha) as (Hc & Hslot & Ha1).
  assert (r.1 = VNum (nextshellDelayId σ)) as Hh
    by (subst r; by rewrite setShellDelay_available).
  assert (trace r.2 = trace σ ++ started) as Ht.
  { subst r. rewrite setShellDelay_available by done. simpl.
    by rewrite <- app_assoc. }
  assert (length (children r.2) = S (length (children σ))) as Hlen.
  { subst r. rewrite setShellDelay_available by done. simpl.
    rewrite length_app. simpl. lia. }
  assert (timers r.2 = timers σ) as Htm
    by (subst r; by rewrite setShellDelay_available).
  fold r in Hc, Hslot, Ha1. fold pid in Hc, Hslot.
  set (c := Child ("sleep " +:+ thousandths_to_string ms +:+ "s")
              (nextshellDelayId σ) cb ms recur Sleeping) in *.
  assert (pid < length (children r.2))%nat as Hlt by (by eapply lookup_lt_Some).
  split.
  - set (σ2 := log (EvKill pid true)
                 (set_children (<[pid := with_status (Exited true) c]>) r.2)).
    assert (children σ2 !! pid = Some (with_status (Exited true) c)) as Hc2.
    { simpl. by apply list_lookup_insert_eq. }
    set (σ3 := set_children
                 (<[pid := with_status Reaped (with_status (Exited true) c)]>) σ2).
    assert (clearShellDelay 1 r.1 r.2 = Returned VUndefined σ2) as Hclear.
    { rewrite Hh. simpl. rewrite Hslot. simpl.
      by rewrite (kill_sleeping pid c). }
    exists σ2, σ3.
    unfold clearShellTimeout, clearShellInterval. rewrite Ha1, Hclear.
    split; [done |]. split; [done |]. split; [| split; [| split; [| split]]].
    + intros error. cbn [perform]. by rewrite Hc2.
    + cbn [perform]. by rewrite Hc2.
    + simpl. rewrite Ht. by rewrite <- app_assoc.
    + simpl. by rewrite !length_insert.
    + done.
  - set (σ1 := set_children (<[pid := with_status (Exited false) c]>) r.2).
    assert (children σ1 !! pid = Some (with_status (Exited false) c)) as Hc1.
    { simpl. by apply list_lookup_insert_eq. }
    set (σ2 := log (EvKill pid true) σ1).
    assert (clearShellDelay 1 r.1 σ1 = Returned VUndefined σ2) as Hclear.
    { rewrite Hh. cbn [clearShellDelay follow].
      change (shellDelays σ1) with (shellDelays r.2).
      cbn [get]. rewrite Hslot.
      change (default VUndefined (Some (VChildProcess pid)))
        with (VChildProcess pid).
      cbn [typeof_number call_kill].
      by rewrite (kill_exited pid _ false σ1 Hc1). }
    set (σ0 := set_children
                 (<[pid := with_status Reaped (with_status (Exited false) c)]>) σ2).
    exists σ1, σ2,
      (if recur then
         store (nextshellDelayId σ) (setShellDelay cb ms true σ0).1
           (setShellDelay cb ms true σ0).2
       else σ0).
    unfold clearShellTimeout, clearShellInterval.
    change (isSleepAvailable σ1) with (isSleepAvailable r.2).
    rewrite Ha1, Hclear.
    split; [cbn [perform]; by rewrite Hc |].
    split; [done |]. split; [done |].
    split; [simpl; rewrite Ht; by rewrite <- app_assoc |].
    assert (length (children σ0) = S (length (children σ))) as Hlen0.
    { simpl. by rewrite !length_insert. }
    split.
    + cbn [perform]. change (children σ2) with (children σ1). rewrite Hc1.
      cbn [c_status with_status]. fold σ0. unfold on_exit. cbn [negb].
      change (c_callback (with_status (Exited false) c)) with cb.
      change (c_ms (with_status (Exited false) c)) with ms.
      change (c_recur (with_status (Exited false) c)) with recur.
      change (c_delayId (with_status (Exited false) c))
        with (nextshellDelayId σ).
      destruct recur; [| done].
      by destruct (setShellDelay cb ms true σ0).
    + destruct recur; [| exact Hlen0].
      rewrite setShellDelay_available by exact Ha1.
      cbn [snd store log set_children set_shellDelays set_nextshellDelayId
           children].
      rewrite length_app. fold σ0. rewrite Hlen0. simpl. lia.
Qed.

(** ** The promise of [shellSleep] *)

(** X7.  With the sleep utility available, [shellSleep] starts one process;
    the promise is resolved when that process has ended naturally and its
    completion is delivered, and only once; when the process ends with an
    error the promise is neither resolved nor rejected: nothing happens at
    all. *)
Theorem shellSleep_settles fuel ms σ :
  isSleepAvailable σ = true →
  let pid := length (children σ) in
  let started :=
    [EvExec pid ("sleep " +:+ thousandths_to_string ms +:+ "s");
     EvStore (nextshellDelayId σ) (VChildProcess pid)] in
  trace (shellSleep ms σ) = trace σ ++ started ∧
  (∃ σ3,
     run fuel [AExit pid false; ADeliver pid] (shellSleep ms σ) =
       Returned VUndefined σ3 ∧
     trace σ3 = trace σ ++ started ++ [EvInvoke "resolve"] ∧
     perform fuel (ADeliver pid) σ3 = Returned VUndefined σ3) ∧
  (∃ σ3,
     run fuel [AExit pid true; ADeliver pid] (shellSleep ms σ) =
       Returned VUndefined σ3 ∧
     trace σ3 = trace σ ++ started ∧
     perform fuel (ADeliver pid) σ3 = Returned VUndefined σ3).
Proof.
  intros Ha pid started. unfold shellSleep, setShellTimeout.
  destruct (setShellDelay_spawns (Callback "resolve" []) ms false σ Ha)
    as (Hc & _ & _).
  assert (trace (setShellDelay (Callback "resolve" []) ms false σ).2 =
          trace σ ++ started) as Ht.
  { rewrite setShellDelay_available by done. simpl. by rewrite <- app_assoc. }
  set (σ1 := (setShellDelay (Callback "resolve" []) ms false σ).2) in *.
  fold pid in Hc.
  set (c := Child ("sleep " +:+ thousandths_to_string ms +:+ "s")
              (nextshellDelayId σ) (Callback "resolve" []) ms false Sleeping) in *.
  assert (pid < length (children σ1))%nat as Hlt by (by eapply lookup_lt_Some).
  assert (∀ error,
    perform fuel (AExit pid error) σ1 =
      Returned VUndefined
        (set_children (<[pid := with_status (Exited error) c]>) σ1)) as Hexit.
  { intros error. cbn [perform]. by rewrite Hc. }
  assert (∀ error,
    children (set_children (<[pid := with_status (Exited error) c]>) σ1) !! pid =
      Some (with_status (Exited error) c)) as Hc2.
  { intros error. simpl. by apply list_lookup_insert_eq. }
  split; [done |]. split.
  - eexists. cbn [run]. rewrite Hexit. cbn [perform]. rewrite Hc2.
    cbn [c_status with_status on_exit negb c_recur c_callback invoke
           cb_body cb_name run_calls].
    split; [done |]. split.
    + simpl. rewrite Ht. by rewrite <- app_assoc.
    + simpl. rewrite list_insert_insert_eq.
      rewrite list_lookup_insert_eq by done. done.
  - eexists. cbn [run]. rewrite Hexit. cbn [perform]. rewrite Hc2.
    cbn [c_status with_status on_exit negb].
    split; [done |]. split; [done |].
    simpl. rewrite list_insert_insert_eq.
    rewrite list_lookup_insert_eq by done. done.
Qed.

(** ** When the sleep utility is missing, or goes missing *)

(** X8.  Without the sleep utility, a delay of either kind cancelled with
    either cancel function is cancelled: the handle that the scheduling call
    returned leads the native cancel to the timer just set, which is removed,
    so that it cannot fire any more; the dictionary and the processes are not
    touched. *)
Theorem fallback_cancel_round_trip fuel cb ms recur σ :
  isSleepAvailable σ = false →
  let r := setShellDelay cb ms recur σ in
  let tid := nextTimerId σ in
  ∃ σ2,
    clearShellTimeout fuel r.1 r.2 = Returned VUndefined σ2 ∧
    clearShellInterval fuel r.1 r.2 = Returned VUndefined σ2 ∧
    timers r.2 !! tid = Some (Timer cb ms recur) ∧
    timers σ2 !! tid = None ∧
    perform fuel (AFire tid) σ2 = Returned VUndefined σ2 ∧
    trace σ2 =
      trace σ ++
        [EvNativeSet tid recur (cb_name cb) ms; EvNativeClear (VTimeout tid)] ∧
    shellDelays σ2 = shellDelays σ ∧
    children σ2 = children σ.
Proof.
  intros Ha r tid. subst r.
  rewrite setShellDelay_unavailable by done.
  unfold clearShellTimeout, clearShellInterval, clearInterval.
  unfold isSleepAvailable in *. simpl.
  rewrite Ha. eexists. split; [done |]. split; [done |].
  simpl. rewrite lookup_insert_eq, lookup_delete_eq.
  repeat split; try done. by rewrite <- app_assoc.
Qed.

(** X9.  The cancel functions choose their path by asking whether the sleep
    utility is available now, not by how the delay was scheduled.  So when
    the utility has been removed since a delay was scheduled with it, either
    cancel function returns normally, having handed the number to the native
    cancel, and nothing is cancelled: the process goes on sleeping, and when
    it has ended its completion handler goes on to invoke the callback. *)
Theorem cancel_after_sleep_removed_is_lost fuel cb ms recur σ :
  isSleepAvailable σ = true →
  let r := setShellDelay cb ms recur σ in
  let pid := length (children σ) in
  let σ1 := set_sleepInstalled false r.2 in
  let σ2 := log (EvNativeClear r.1) σ1 in
  perform fuel (AOracle false) r.2 = Returned VUndefined σ1 ∧
  clearShellTimeout fuel r.1 σ1 = Returned VUndefined σ2 ∧
  clearShellInterval fuel r.1 σ1 = Returned VUndefined σ2 ∧
  children σ2 !! pid =
    Some (Child ("sleep " +:+ thousandths_to_string ms +:+ "s")
            (nextshellDelayId σ) cb ms recur Sleeping) ∧
  timers σ2 = timers σ ∧
  ∃ σ3 σ4,
    perform fuel (AExit pid false) σ2 = Returned VUndefined σ3 ∧
    perform fuel (ADeliver pid) σ3 = invoke fuel cb σ4.
Proof.
  intros Ha r pid σ1 σ2.
  destruct (setShellDelay_spawns cb ms recur σ Ha) as (Hc & _ & _).
  fold r pid in Hc.
  assert (r.1 = VNum (nextshellDelayId σ)) as Hh
    by (subst r; by rewrite setShellDelay_available).
  assert (timers r.2 = timers σ) as Htm
    by (subst r; by rewrite setShellDelay_available).
  set (c := Child ("sleep " +:+ thousandths_to_string ms +:+ "s")
              (nextshellDelayId σ) cb ms recur Sleeping) in *.
  assert (pid < length (children r.2))%nat as Hlt by (by eapply lookup_lt_Some).
  split; [done |].
  assert (clearTimeout r.1 σ1 = σ2) as Hclr by (subst σ2; by rewrite Hh).
  unfold clearShellTimeout, clearShellInterval, clearInterval.
  change (isSleepAvailable σ1) with false. cbn iota. rewrite Hclr.
  split; [done |]. split; [done |]. split; [exact Hc |]. split; [exact Htm |].
  eexists _, _. split.
  - cbn [perform]. change (children σ2) with (children r.2). by rewrite Hc.
  - cbn [perform]. simpl children.
    rewrite list_lookup_insert_eq by done.
    cbn [c_status with_status on_exit negb]. reflexivity.
Qed.

(** ** An interval that keeps ticking *)

Lemma interval_at_start cb ms σ :
  isSleepAvailable σ = true →
  interval_at (nextshellDelayId σ) (length (children σ)) cb ms 0
    (setShellInterval cb ms σ).2.
Proof.
  intros Ha. unfold setShellInterval.
  destruct (setShellDelay_spawns cb ms true σ Ha) as (Hc & Hslot & Ha1).
  unfold interval_at. rewrite !Nat.add_0_r, !Z.add_0_r.
  split; [done |]. split; [| split; [| split; [done | split; [| done]]]].
  - rewrite setShellDelay_available by done. simpl. lia.
  - rewrite setShellDelay_available by done. simpl.
    rewrite length_app. simpl. lia.
  - intros j Hj. lia.
Qed.

(** Two worlds with the same fields are the same world. *)
Lemma world_ext σ σ' :
  shellDelays σ = shellDelays σ' →
  nextshellDelayId σ = nextshellDelayId σ' →
  sleepInstalled σ = sleepInstalled σ' →
  children σ = children σ' →
  timers σ = timers σ' →
  nextTimerId σ = nextTimerId σ' →
  trace σ = trace σ' →
  σ = σ'.
Proof. destruct σ, σ'. simpl. by intros -> -> -> -> -> -> ->. Qed.

(** One tick: the process ends naturally and its completion is delivered. *)
Lemma tick_world pid c σ :
  isSleepAvailable σ = true →
  children σ !! pid = Some c →
  c_status c = Sleeping →
  c_recur c = true →
  cb_body (c_callback c) = [] →
  world_after 1 [AExit pid false; ADeliver pid] σ =
    log (EvInvoke (cb_name (c_callback c)))
      (store (c_delayId c) (VNum (nextshellDelayId σ))
         (store (nextshellDelayId σ) (VChildProcess (length (children σ)))
            (log (EvExec (length (children σ))
                    ("sleep " +:+ thousandths_to_string (c_ms c) +:+ "s"))
               (set_children
                  (λ cs, <[pid := with_status Reaped c]> cs ++
                         [Child ("sleep " +:+ thousandths_to_string (c_ms c) +:+ "s")
                            (nextshellDelayId σ) (c_callback c) (c_ms c) true
                            Sleeping])
                  (set_nextshellDelayId (nextshellDelayId σ + 1) σ))))).
Proof.
  intros Ha Hc Hs Hr Hb.
  assert (pid < length (children σ))%nat as Hlt by (by eapply lookup_lt_Some).
  unfold world_after. cbn [run perform]. rewrite Hc, Hs.
  cbn [run perform children set_children].
  rewrite list_lookup_insert_eq by done.
  cbn [c_status with_status on_exit negb c_recur c_callback c_ms c_delayId].
  rewrite Hr. rewrite setShellDelay_available by done.
  unfold invoke. rewrite Hb. cbn [run_calls run].
  apply world_ext;
    cbn [store log set_children set_shellDelays set_nextshellDelayId
         shellDelays nextshellDelayId sleepInstalled children timers
         nextTimerId trace with_status c_command c_delayId c_callback c_ms
         c_recur c_status];
    rewrite ?list_insert_insert_eq, ?length_insert; reflexivity.
Qed.

Lemma interval_at_tick h p cb ms i σ :
  cb_body cb = [] →
  interval_at h p cb ms i σ →
  interval_at h p cb ms (S i)
    (world_after 1 [AExit (p + i)%nat false; ADeliver (p + i)%nat] σ).
Proof.
  intros Hb (Ha & Hn & Hlen & Hc & Hchain & Hlast).
  rewrite (tick_world _ _ σ Ha Hc) by done. simpl c_delayId. simpl c_ms.
  simpl c_callback. unfold interval_at. simpl.
  split; [done |]. split; [lia |]. split; [| split; [| split]].
  - rewrite length_app, length_insert. simpl. lia.
  - replace (p + S i)%nat with (length (<[(p + i)%nat :=
        with_status Reaped
          (Child ("sleep " +:+ thousandths_to_string ms +:+ "s")
             (h + Z.of_nat i) cb ms true Sleeping)]> (children σ)) + 0)%nat
      by (rewrite length_insert; lia).
    rewrite lookup_app_r by lia.
    rewrite Nat.add_0_r, Nat.sub_diag. simpl. do 2 f_equal. lia.
  - intros j Hj. destruct (decide (j = i)) as [-> | Hne].
    + rewrite lookup_insert_eq. do 2 f_equal. lia.
    + rewrite !lookup_insert_ne by lia. apply Hchain. lia.
  - rewrite lookup_insert_ne by lia.
    replace (h + Z.of_nat (S i)) with (nextshellDelayId σ) by lia.
    rewrite lookup_insert_eq. do 2 f_equal. lia.
Qed.

Lemma interval_at_ticks h p cb ms n :
  cb_body cb = [] →
  ∀ i σ,
    interval_at h p cb ms i σ →
    interval_at h p cb ms (i + n) (ticks n (p + i) σ).
Proof.
  intros Hb. induction n as [| n IH]; intros i σ Hi; simpl.
  - by rewrite Nat.add_0_r.
  - replace (i + S n)%nat with (S i + n)%nat by lia.
    replace (S (p + i)) with (p + S i)%nat by lia.
    apply IH. by apply interval_at_tick.
Qed.

(** The walk from slot [h + j] takes as many steps as there are slots left. *)
Lemma interval_at_chain h p cb ms n σ :
  interval_at h p cb ms n σ →
  ∀ d j, (j + d = n)%nat →
    follow d (shellDelays σ) (get (shellDelays σ) (VNum (h + Z.of_nat j))) =
      Some (VChildProcess (p + n)) ∧
    ∀ m, (m < d)%nat →
      follow m (shellDelays σ) (get (shellDelays σ) (VNum (h + Z.of_nat j))) =
        None.
Proof.
  intros (_ & _ & _ & _ & Hchain & Hlast).
  induction d as [| d IH]; intros j Hj.
  - assert (j = n) as -> by lia. simpl. rewrite Hlast. simpl.
    split; [done | lia].
  - simpl get. rewrite Hchain by lia. simpl default.
    destruct (IH (S j) ltac:(lia)) as [IH1 IH2].
    replace (h + Z.of_nat (S j)) with (h + Z.of_nat j + 1) in IH1, IH2 by lia.
    split.
    + exact IH1.
    + intros [| m] Hm; [done |]. simpl. apply IH2. lia.
Qed.

(** X10.  An interval never shortens its chain.  With the sleep utility
    available and a callback that leaves the module alone, after [n] ticks
    the counter has advanced by [n + 1], [n + 1] processes have been started,
    and the walk from the handle needs exactly [n] indirections to arrive at
    the process now sleeping: fewer steps do not reach it, and a cancellation
    follows all [n] before it terminates that process. *)
Theorem chain_grows_with_every_tick n cb ms σ :
  isSleepAvailable σ = true →
  cb_body cb = [] →
  let r := setShellInterval cb ms σ in
  let p := length (children σ) in
  let σn := ticks n p r.2 in
  nextshellDelayId σn = nextshellDelayId σ + Z.of_nat n + 1 ∧
  length (children σn) = (p + n + 1)%nat ∧
  follow n (shellDelays σn) (get (shellDelays σn) r.1) =
    Some (VChildProcess (p + n)) ∧
  (∀ m, (m < n)%nat →
     follow m (shellDelays σn) (get (shellDelays σn) r.1) = None) ∧
  ∃ c,
    children σn !! (p + n)%nat = Some c ∧
    clearShellInterval (S n) r.1 σn =
      Returned VUndefined
        (log (EvKill (p + n) true)
           (set_children (<[(p + n)%nat := with_status (Exited true) c]>) σn)).
Proof.
  intros Ha Hb r p σn.
  pose proof (interval_at_start cb ms σ Ha) as H0.
  pose proof (interval_at_ticks _ _ _ _ n Hb 0%nat _ H0) as Hn.
  rewrite Nat.add_0_r in Hn. simpl in Hn. fold r p σn in Hn.
  assert (r.1 = VNum (nextshellDelayId σ + Z.of_nat 0)) as Hh.
  { subst r. unfold setShellInterval.
    rewrite setShellDelay_available by done. simpl. f_equal. lia. }
  destruct (interval_at_chain _ _ _ _ _ _ Hn n 0%nat ltac:(lia)) as [Hf Hnone].
  rewrite <- Hh in Hf, Hnone.
  destruct Hn as (Han & Hnext & Hlen & Hc & _ & _).
  split; [done |]. split; [done |]. split; [done |]. split; [done |].
  eexists. split; [exact Hc |].
  unfold clearShellInterval. rewrite Han. simpl clearShellDelay.
  rewrite Hf. simpl. by rewrite (kill_sleeping _ _ _ Hc).
Qed.

(** ** One process for every slot *)

Lemma paired_quiet σ σ' : paired σ → quiet σ σ' → paired σ'.
Proof.
  intros [P1 P2] [Q1 Q2 Q3 Q4 Q5]. split; [by rewrite Q4, Q2 |].
  intros pid c' Hc'. destruct (Q5 _ _ Hc') as (c & Hc & ->). by apply P2.
Qed.

Lemma paired_same σ σ' :
  nextshellDelayId σ' = nextshellDelayId σ →
  children σ' = children σ →
  paired σ → paired σ'.
Proof. intros E1 E2 [P1 P2]. split; rewrite ?E1, ?E2; done. Qed.

Lemma paired_setShellDelay cb ms recur σ :
  paired σ → paired (setShellDelay cb ms recur σ).2.
Proof.
  intros [P1 P2]. destruct (isSleepAvailable σ) eqn:Ha.
  2: { rewrite setShellDelay_unavailable by done. by split. }
  rewrite setShellDelay_available by done. split; simpl.
  - rewrite length_app. simpl. lia.
  - intros pid c. rewrite lookup_app_Some. intros [Hc | [Hlen Hc]].
    + by apply P2.
    + apply list_lookup_singleton_Some in Hc as [Hpid <-]. simpl. lia.
Qed.

Lemma paired_run_call fuel c σ σ' :
  paired σ → final (run_call fuel c σ) = Some σ' → paired σ'.
Proof.
  intros Hp H. destruct c as [cb ms | cb ms | h | h]; simpl in H.
  - pose proof (paired_setShellDelay cb ms false σ Hp) as Hs.
    unfold setShellTimeout in H. destruct (setShellDelay cb ms false σ).
    simpl in *. by injection H as <-.
  - pose proof (paired_setShellDelay cb ms true σ Hp) as Hs.
    unfold setShellInterval in H. destruct (setShellDelay cb ms true σ).
    simpl in *. by injection H as <-.
  - apply (paired_quiet σ); [done |]. by eapply clearShellTimeout_final_quiet.
  - apply (paired_quiet σ); [done |]. by eapply clearShellInterval_final_quiet.
Qed.

Lemma paired_run_calls fuel cs σ σ' :
  paired σ → final (run_calls fuel cs σ) = Some σ' → paired σ'.
Proof.
  revert σ. induction cs as [| c cs IH]; intros σ Hp; simpl.
  - by intros [= <-].
  - destruct (run_call fuel c σ) as [v σ1 | e σ1 | σ1] eqn:E; simpl.
    + apply IH. eapply paired_run_call; [exact Hp |]. by rewrite E.
    + intros [= <-]. eapply paired_run_call; [exact Hp |]. by rewrite E.
    + done.
Qed.

Lemma paired_invoke fuel cb σ σ' :
  paired σ → final (invoke fuel cb σ) = Some σ' → paired σ'.
Proof.
  intros Hp. unfold invoke. apply paired_run_calls. by apply (paired_same σ).
Qed.

Lemma paired_on_exit fuel c error σ σ' :
  paired σ → final (on_exit fuel c error σ) = Some σ' → paired σ'.
Proof.
  intros Hp. unfold on_exit. destruct error; simpl.
  { by intros [= <-]. }
  apply paired_invoke. destruct (c_recur c); [| done].
  pose proof (paired_setShellDelay (c_callback c) (c_ms c) true σ Hp) as Hs.
  destruct (setShellDelay (c_callback c) (c_ms c) true σ) as [h σ1].
  by apply (paired_same σ1).
Qed.

Lemma paired_perform fuel a σ σ' :
  paired σ → final (perform fuel a σ) = Some σ' → paired σ'.
Proof.
  intros Hp. destruct a as [c | pid error | pid | pid | tid | installed |]; simpl.
  - by apply paired_run_call.
  - destruct (children σ !! pid) as [c |] eqn:Hc; [| by intros [= <-]].
    destruct (c_status c); simpl; try by intros [= <-].
    intros [= <-]. apply (paired_quiet σ); [done | by apply quiet_set_status].
  - destruct (children σ !! pid) as [c |] eqn:Hc; [| by intros [= <-]].
    destruct (c_status c); simpl; try by intros [= <-].
    intros [= <-]. apply (paired_quiet σ); [done | by apply quiet_set_status].
  - destruct (children σ !! pid) as [c |] eqn:Hc; [| by intros [= <-]].
    destruct (c_status c) as [| error | error |]; simpl; try by intros [= <-].
    all: apply paired_on_exit;
      apply (paired_quiet σ); [done | by apply quiet_set_status].
  - destruct (timers σ !! tid) as [t |]; [| by intros [= <-]].
    apply paired_invoke. destruct (t_repeat t); [done |].
    by apply (paired_same σ).
  - intros [= <-]. by apply (paired_same σ).
  - intros [= <-]. by apply (paired_same σ).
Qed.

(** X12.  Slots and processes come in pairs.  In every reachable world the
    keys of the dictionary are exactly the numbers below the counter, as many
    processes have been started as slots dispensed, and the [n]-th process
    is the one whose completion handler closes over slot [n]: nothing is ever
    dispensed without a process, and no process shares its slot. *)
Theorem one_process_per_slot flips σ :
  reachable flips σ →
  (∀ k, is_Some (shellDelays σ !! k) ↔ 0 ≤ k < nextshellDelayId σ) ∧
  Z.of_nat (length (children σ)) = nextshellDelayId σ ∧
  ∀ pid c, children σ !! pid = Some c → c_delayId c = Z.of_nat pid.
Proof.
  intros Hr. split; [apply (inv_dom _ _ (reachable_inv _ _ Hr)) |].
  induction Hr as [installed | σ fuel a σ' _ IH Hal Hstep]; [by split |].
  by eapply paired_perform.
Qed.

(** ** Command lines and durations *)

(** X13.  Below 2 ^ 43 seconds the command line tells the duration: two
    scheduling calls given different whole numbers of milliseconds, each
    less than 2 ^ 43 seconds either way from zero, start processes with
    different command lines. *)
Theorem command_determines_duration cb (ms : Z) recur σ cb' (ms' : Z) recur' σ' :
  isSleepAvailable σ = true →
  isSleepAvailable σ' = true →
  Z.abs ms < 1000 * 2 ^ 43 →
  Z.abs ms' < 1000 * 2 ^ 43 →
  ms ≠ ms' →
  c_command <$> children (setShellDelay cb ms recur σ).2 !! length (children σ) ≠
    c_command <$>
      children (setShellDelay cb' ms' recur' σ').2 !! length (children σ').
Proof.
  intros Ha Ha' Hms Hms' Hne.
  destruct (setShellDelay_spawns cb ms recur σ Ha) as (-> & _ & _).
  destruct (setShellDelay_spawns cb' ms' recur' σ' Ha') as (-> & _ & _).
  cbn [fmap option_fmap option_map c_command].
  rewrite !append_String, !append_Empty. intros [= E].
  apply append_char_cancel in E.
  destruct (read_thousandths ms Hms) as (m & k & Hr & Hm).
  destruct (read_thousandths ms' Hms') as (m' & k' & Hr' & Hm').
  rewrite E in Hr. assert (m = m' ∧ k = k') as [-> ->] by (split; congruence).
  assert (0 < 10 ^ Z.of_nat k') by (apply Z.pow_pos_nonneg; lia).
  apply Hne. nia.
Qed.

(** Beyond, it does not: two durations a millisecond apart with one command
    line. *)
Example durations_with_one_command_line :
  thousandths_to_string 9007199254740991 =
    thousandths_to_string 9007199254740990.
Proof. vm_compute. reflexivity. Qed.

(** ** The theorems of this part at concrete worlds *)

Lemma evolves_head fuel a σ σ1 σ2 :
  final (perform fuel a σ) = Some σ1 → evolves σ1 σ2 → evolves σ σ2.
Proof.
  intros Hstep He. induction He as [σ1 | σ1 σ2 σ3 fuel' a' _ IH Hstep'].
  - eapply evolves_step; [apply evolves_refl | exact Hstep].
  - eapply evolves_step; [by apply IH | exact Hstep'].
Qed.

Lemma world_after_evolves fuel acts σ : evolves σ (world_after fuel acts σ).
Proof.
  unfold world_after.
  destruct (run fuel acts σ) as [v σ' | ? ? | ?] eqn:E; try apply evolves_refl.
  revert σ E. induction acts as [| a acts IH]; intros σ; simpl.
  - intros [= _ <-]. apply evolves_refl.
  - destruct (perform fuel a σ) as [v1 σ1 | ? ? | ?] eqn:E1; try done.
    intros E. apply (evolves_head fuel a σ σ1); [by rewrite E1 | by apply IH].
Qed.

Lemma registry_never_shrinks_witness :
  nextshellDelayId (initial true) ≤
    nextshellDelayId (world_after 1 one_tick (initial true)) ∧
  (length (children (initial true)) ≤
     length (children (world_after 1 one_tick (initial true))))%nat.
Proof.
  destruct (registry_never_shrinks (initial true)
              (world_after 1 one_tick (initial true))) as (H1 & _ & H2).
  - apply world_after_evolves.
  - split; [exact H1 | exact H2].
Defined.

Lemma handles_never_reused_witness :
  ∃ k k',
    (setShellDelay tick 1500 false (initial true)).1 = VNum k ∧
    (setShellDelay tick 1000 true
       (setShellDelay tick 1500 false (initial true)).2).1 = VNum k' ∧
    k < k'.
Proof.
  apply (handles_never_reused tick 1500 false tick 1000 true (initial true)).
  - reflexivity.
  - apply evolves_refl.
  - reflexivity.
Defined.

Lemma sleeping_process_is_cancellable_witness :
  shellDelays timeout_expired !! 0 = Some (VChildProcess 0) ∧
  clearShellTimeout 1 (VNum 0) timeout_set =
    Returned VUndefined
      (log (EvKill 0 true)
         (set_children
            (<[0%nat := Child "sleep 1.5s" 0 tick 1500 false (Exited true)]>)
            timeout_set)).
Proof.
  split.
  - destruct (sleeping_process_is_cancellable false 0 0
                (Child "sleep 1.5s" 0 tick 1500 false (Exited false))
                timeout_expired) as [H _].
    + apply world_after_reachable. repeat constructor.
    + reflexivity.
    + discriminate.
    + exact H.
  - destruct (sleeping_process_is_cancellable false 0 0
                (Child "sleep 1.5s" 0 tick 1500 false Sleeping)
                timeout_set) as [_ H].
    + apply world_after_reachable. repeat constructor.
    + reflexivity.
    + discriminate.
    + destruct H as [H _]; [reflexivity | reflexivity |]. exact H.
Defined.

Lemma ended_timeout_cancel_never_returns_witness :
  clearShellTimeout 5 (VNum 0) timeout_fired =
    OutOfFuel (after_failures 5 0 timeout_fired) ∧
  trace (after_failures 5 0 timeout_fired) =
    trace timeout_fired ++ replicate 5 (EvKill 0 false).
Proof.
  destruct (ended_timeout_cancel_never_returns false 5 0
              (Child "sleep 1.5s" 0 tick 1500 false Reaped)
              timeout_fired) as (_ & H1 & _ & H2).
  - apply world_after_reachable. repeat constructor.
  - reflexivity.
  - reflexivity.
  - reflexivity.
  - reflexivity.
  - split; [exact H1 | exact H2].
Defined.

Lemma cancel_before_expiry_silences_witness :
  (∃ σ2 σ3,
     clearShellTimeout 1 (VNum 0) timeout_set = Returned VUndefined σ2 ∧
     perform 1 (ADeliver 0) σ2 = Returned VUndefined σ3 ∧
     trace σ3 =
       [EvExec 0 "sleep 1.5s"; EvStore 0 (VChildProcess 0); EvKill 0 true]) ∧
  (∃ σ2 σ3,
     clearShellTimeout 1 (VNum 0) timeout_expired = Returned VUndefined σ2 ∧
     perform 1 (ADeliver 0) σ2 = invoke 1 tick σ3).
Proof.
  destruct (cancel_before_expiry_silences 1 tick 1500 false (initial true))
    as [(σ2 & σ3 & H1 & _ & _ & H2 & H3 & _)
        (τ1 & τ2 & τ3 & G0 & G1 & _ & _ & G2 & _)].
  - reflexivity.
  - split.
    + exists σ2, σ3. split; [exact H1 |]. split; [exact H2 | exact H3].
    + exists τ2, τ3. injection G0 as <-. split; [exact G1 | exact G2].
Defined.

Lemma shellSleep_settles_witness :
  trace (shellSleep 100 (initial true)) =
    [EvExec 0 "sleep 0.1s"; EvStore 0 (VChildProcess 0)].
Proof.
  destruct (shellSleep_settles 1 100 (initial true)) as [H _].
  - reflexivity.
  - exact H.
Defined.

Lemma fallback_cancel_round_trip_witness :
  ∃ σ2,
    clearShellTimeout 1 (VTimeout 0)
      (setShellDelay tick 1000 true (initial false)).2 =
      Returned VUndefined σ2 ∧
    timers σ2 !! 0%nat = None.
Proof.
  destruct (fallback_cancel_round_trip 1 tick 1000 true (initial false))
    as (σ2 & H1 & _ & _ & H2 & _).
  - reflexivity.
  - exists σ2. split; [exact H1 | exact H2].
Defined.

Lemma cancel_after_sleep_removed_is_lost_witness :
  children
    (log (EvNativeClear (VNum 0))
       (set_sleepInstalled false
          (setShellDelay tick 1500 false (initial true)).2)) !! 0%nat =
    Some (Child "sleep 1.5s" 0 tick 1500 false Sleeping).
Proof.
  destruct (cancel_after_sleep_removed_is_lost 1 tick 1500 false (initial true))
    as (_ & _ & _ & H & _).
  - reflexivity.
  - exact H.
Defined.

Lemma chain_grows_with_every_tick_witness :
  follow 2
    (shellDelays (ticks 2 0 (setShellInterval tick 1000 (initial true)).2))
    (get (shellDelays (ticks 2 0 (setShellInterval tick 1000 (initial true)).2))
       (VNum 0)) =
    Some (VChildProcess 2).
Proof.
  destruct (chain_grows_with_every_tick 2 tick 1000 (initial true))
    as (_ & _ & H & _).
  - reflexivity.
  - reflexivity.
  - exact H.
Defined.

Lemma one_process_per_slot_witness :
  Z.of_nat (length (children (world_after 1 one_tick (initial true)))) =
    nextshellDelayId (world_after 1 one_tick (initial true)).
Proof.
  destruct (one_process_per_slot false (world_after 1 one_tick (initial true)))
    as (_ & H & _).
  - apply world_after_reachable. repeat constructor.
  - exact H.
Defined.

Lemma command_determines_duration_witness :
  c_command <$> children (setShellDelay tick 1500 false (initial true)).2 !! 0%nat ≠
    c_command <$> children (setShellDelay tick 1000 true (initial true)).2 !! 0%nat.
Proof.
  apply (command_determines_duration tick 1500 false (initial true)
           tick 1000 true (initial true));
    [reflexivity | reflexivity | vm_compute; reflexivity
    | vm_compute; reflexivity | discriminate].
Defined.
